(** * gccrs: the lowering context and the expression type checker

    A shallow embedding of the lowering context and the target-type
    materializer of [gcc/rust/backend/rust-compile-context.h] (namespace
    [Rust::Compile]: [Context], [TyTyResolveCompile]) and of the
    expression type checker [TypeCheckExpr] (namespace [Rust::Resolver],
    header guard [RUST_HIR_TYPE_CHECK_EXPR]), with the properties that
    the specification states of them.

    Conventions of the embedding:
    - a C++ pointer [T *] is an [option T]; [None] is [nullptr];
    - a [std::vector] is a [list] whose [back ()] is its last element;
    - a [std::map<HirId, V>] is a [gmap N V];
    - a member function that reads or writes an object is a function from
      the object's state to a [result]: [Done x s] when it returns [x] in
      state [s], [Aborted a] when the run ends otherwise: the compiler
      stops with a fatal error, or the run reaches an operation for
      which C++ defines no behaviour ([Undefined]), and from there on
      nothing is said of what the program does: it need not stop;
    - a lookup that returns [bool] and writes its result through an
      output pointer returns an [option] where the source calls it on a
      fresh local; in [Context], whose callers are outside, it returns
      the boolean and the content of the caller's variable after the
      call.

    The file has the definitions first ([TyTy], [Compile], [HIR],
    [Resolver], each with the code, the words of the specification it is
    compared with and a sample to run it on), then the properties. *)

From stdpp Require Import gmap strings list.

Open Scope N_scope.

(** ** Identities, locations, pointers *)

Abbreviation HirId := N (only parsing).
Abbreviation NodeId := N (only parsing).
Abbreviation CrateNum := N (only parsing).
Abbreviation Location := N (only parsing).
Abbreviation ptr T := (option T) (only parsing).
Abbreviation nullptr := None (only parsing).

(** ** Ways in which a run ends without a result

    The first three are the fatal errors with which the compiler stops.
    [Undefined] is no error of the compiler: it marks a run that reaches
    an operation without defined behaviour, which the sources do not
    check for.  The program may crash there, or return and go on in a
    state that this embedding has no value for; the embedding follows
    such a run no further. *)

Inductive abort : Type :=
| AssertFailed                                 (* rust_assert (false) *)
| Unreachable                                  (* gcc_unreachable () *)
| FatalError (locus : Location) (msg : string) (* rust_fatal_error *)
| Undefined.  (* no defined behaviour: a call through nullptr, back (),
                 pop_back () or [0] on an empty vector *)

(** The fatal errors: the ends of a run that the compiler itself
    detects and reports. *)
Definition fatal (a : abort) : Prop := a <> Undefined.

Inductive result (S A : Type) : Type :=
| Aborted (a : abort)
| Done (x : A) (s : S).
Arguments Aborted {S A} a.
Arguments Done {S A} x s.

Definition M (S A : Type) : Type := S -> result S A.

Definition ret {S A} (x : A) : M S A := fun s => Done x s.
Definition stop {S A} (a : abort) : M S A := fun _ => Aborted a.
Definition bind {S A B} (m : M S A) (k : A -> M S B) : M S B :=
  fun s => match m s with
           | Aborted a => Aborted a
           | Done x s' => k x s'
           end.
Definition get {S} : M S S := fun s => Done s s.
Definition modify {S} (f : S -> S) : M S unit := fun s => Done tt (f s).
Definition rust_assert {S} (ok : bool) : M S unit :=
  if ok then ret tt else stop AssertFailed.

Notation "x <- m ;; k" := (bind m (fun x => k))
  (at level 100, m at next level, right associativity).
Notation "m ;;; k" := (bind m (fun _ => k))
  (at level 100, right associativity).

(** [std::vector]: [push_back], [back], [pop_back]. *)
Definition push_back {A} (v : list A) (x : A) : list A := v ++ [x].
Definition back {A} (v : list A) : option A := last v.
Definition pop_back {A} (v : list A) : list A := removelast v.

(** ** Types of the type checker ([TyTy]) *)

Module TyTy.

Inductive IntKind := I8 | I16 | I32 | I64 | I128.
Inductive UintKind := U8 | U16 | U32 | U64 | U128.
Inductive FloatKind := F32 | F64.

Inductive TypeKind :=
| INFER | ADT | FIELD | ARRAY | PARAM | FNDEF | BOOL | INT | UINT | FLOAT
| UNIT | ERROR.

(** Modelled from the spec: the classes of [rust-tyty.h], which is not
    among the sources.  "Type object, one of a closed set of variants:
    Error, Unit, Infer, Fn, ADT, StructField, Param,
    Array{element, capacity}, Bool, Int{width}, Uint{width},
    Float{width}.  Each carries its own defining node identity."  The
    constructors take their arguments in the order the source passes
    them: [UnitType (ref)], [IntType (ref, kind)],
    [ArrayType (ref, capacity, element)]. *)
Inductive TyBase : Type :=
| ErrorType (ref : HirId)
| UnitType (ref : HirId)
| InferType (ref : HirId)
| FnType (ref : HirId)
| StructFieldType (ref : HirId)
| ParamType (ref : HirId)
| ADTType (ref : HirId)
| ArrayType (ref : HirId) (capacity : N) (element : TyBase)
| BoolType (ref : HirId)
| IntType (ref : HirId) (kind : IntKind)
| UintType (ref : HirId) (kind : UintKind)
| FloatType (ref : HirId) (kind : FloatKind).

Definition get_ref (t : TyBase) : HirId :=
  match t with
  | ErrorType r | UnitType r | InferType r | FnType r | StructFieldType r
  | ParamType r | ADTType r | ArrayType r _ _ | BoolType r | IntType r _
  | UintType r _ | FloatType r _ => r
  end.

Definition get_kind (t : TyBase) : TypeKind :=
  match t with
  | ErrorType _ => ERROR
  | UnitType _ => UNIT
  | InferType _ => INFER
  | FnType _ => FNDEF
  | StructFieldType _ => FIELD
  | ParamType _ => PARAM
  | ADTType _ => ADT
  | ArrayType _ _ _ => ARRAY
  | BoolType _ => BOOL
  | IntType _ _ => INT
  | UintType _ _ => UINT
  | FloatType _ _ => FLOAT
  end.

#[global] Instance IntKind_eq_dec : EqDecision IntKind.
Proof. solve_decision. Defined.
#[global] Instance UintKind_eq_dec : EqDecision UintKind.
Proof. solve_decision. Defined.
#[global] Instance FloatKind_eq_dec : EqDecision FloatKind.
Proof. solve_decision. Defined.
#[global] Instance TypeKind_eq_dec : EqDecision TypeKind.
Proof. solve_decision. Defined.
#[global] Instance TyBase_eq_dec : EqDecision TyBase.
Proof. solve_decision. Defined.

End TyTy.

(** ** The lowering context ([Rust::Compile]) *)

Module Compile.
Import TyTy.

(** The code-emission backend, [::Backend], is an abstract class outside
    the sources; its entities and the constructors the lowering code
    calls are the parameters of the development.  Functions are compared
    by [function_completed], so that they have a decidable equality. *)
Class Backend : Type := {
  Btype : Type;
  Bexpression : Type;
  Bstatement : Type;
  Bblock : Type;
  Bfunction : Type;
  Bvariable : Type;
  Bfunction_eq_dec :: EqDecision Bfunction;
  integer_type : bool -> Z -> ptr Btype;
  integer_constant_expression : ptr Btype -> N -> ptr Bexpression;
  array_type : ptr Btype -> ptr Bexpression -> ptr Btype;
}.

Section Context.
Context `{Backend}.

Record fncontext : Type := {
  fndecl : ptr Bfunction;
  ret_addr : ptr Bvariable;
}.

(** The members of a [Context] and, in [attached], the part of the
    backend's state that [pop_block] changes, see
    [block_add_statements].  The constructor, which seeds
    [compiled_type_map] with the builtin types through [TyTyCompile], and
    [write_to_backend] are left to the code outside the sources that
    they call. *)
Record Context : Type := {
  fn_stack : list fncontext;
  compiled_var_decls : gmap N (ptr Bvariable);
  compiled_type_map : gmap N (ptr Btype);
  compiled_fn_map : gmap N (ptr Bfunction);
  compiled_consts : gmap N (ptr Bexpression);
  statements : list (list (ptr Bstatement));
  scope_stack : list (ptr Bblock);
  type_decls : list (ptr Btype);
  var_decls : list (ptr Bvariable);
  const_decls : list (ptr Bexpression);
  func_decls : list (ptr Bfunction);
  attached : list (ptr Bblock * list (ptr Bstatement));
}.

Definition set_fn_stack v (c : Context) : Context :=
  {| fn_stack := v; compiled_var_decls := compiled_var_decls c;
     compiled_type_map := compiled_type_map c;
     compiled_fn_map := compiled_fn_map c;
     compiled_consts := compiled_consts c; statements := statements c;
     scope_stack := scope_stack c; type_decls := type_decls c;
     var_decls := var_decls c; const_decls := const_decls c;
     func_decls := func_decls c; attached := attached c |}.
Definition set_compiled_var_decls m (c : Context) : Context :=
  {| fn_stack := fn_stack c; compiled_var_decls := m;
     compiled_type_map := compiled_type_map c;
     compiled_fn_map := compiled_fn_map c;
     compiled_consts := compiled_consts c; statements := statements c;
     scope_stack := scope_stack c; type_decls := type_decls c;
     var_decls := var_decls c; const_decls := const_decls c;
     func_decls := func_decls c; attached := attached c |}.
Definition set_compiled_type_map m (c : Context) : Context :=
  {| fn_stack := fn_stack c; compiled_var_decls := compiled_var_decls c;
     compiled_type_map := m;
     compiled_fn_map := compiled_fn_map c;
     compiled_consts := compiled_consts c; statements := statements c;
     scope_stack := scope_stack c; type_decls := type_decls c;
     var_decls := var_decls c; const_decls := const_decls c;
     func_decls := func_decls c; attached := attached c |}.
Definition set_compiled_fn_map m (c : Context) : Context :=
  {| fn_stack := fn_stack c; compiled_var_decls := compiled_var_decls c;
     compiled_type_map := compiled_type_map c;
     compiled_fn_map := m;
     compiled_consts := compiled_consts c; statements := statements c;
     scope_stack := scope_stack c; type_decls := type_decls c;
     var_decls := var_decls c; const_decls := const_decls c;
     func_decls := func_decls c; attached := attached c |}.
Definition set_compiled_consts m (c : Context) : Context :=
  {| fn_stack := fn_stack c; compiled_var_decls := compiled_var_decls c;
     compiled_type_map := compiled_type_map c;
     compiled_fn_map := compiled_fn_map c;
     compiled_consts := m; statements := statements c;
     scope_stack := scope_stack c; type_decls := type_decls c;
     var_decls := var_decls c; const_decls := const_decls c;
     func_decls := func_decls c; attached := attached c |}.
Definition set_blocks sc st at' (c : Context) : Context :=
  {| fn_stack := fn_stack c; compiled_var_decls := compiled_var_decls c;
     compiled_type_map := compiled_type_map c;
     compiled_fn_map := compiled_fn_map c;
     compiled_consts := compiled_consts c; statements := st;
     scope_stack := sc; type_decls := type_decls c;
     var_decls := var_decls c; const_decls := const_decls c;
     func_decls := func_decls c; attached := at' |}.

(** *** The four caches *)

Definition lookup_compiled_types (id : HirId) (type : ptr Btype)
  : M Context (bool * ptr Btype) :=
  fun c => match compiled_type_map c !! id with
           | None => Done (false, type) c
           | Some second => Done (true, second) c
           end.

Definition insert_compiled_type (id : HirId) (type : ptr Btype)
  : M Context unit :=
  modify (fun c => set_compiled_type_map (<[id := type]> (compiled_type_map c)) c).

Definition insert_var_decl (id : HirId) (decl : ptr Bvariable)
  : M Context unit :=
  modify (fun c => set_compiled_var_decls (<[id := decl]> (compiled_var_decls c)) c).

Definition lookup_var_decl (id : HirId) (decl : ptr Bvariable)
  : M Context (bool * ptr Bvariable) :=
  fun c => match compiled_var_decls c !! id with
           | None => Done (false, decl) c
           | Some second => Done (true, second) c
           end.

Definition insert_function_decl (id : HirId) (fn : ptr Bfunction)
  : M Context unit :=
  modify (fun c => set_compiled_fn_map (<[id := fn]> (compiled_fn_map c)) c).

Definition lookup_function_decl (id : HirId) (fn : ptr Bfunction)
  : M Context (bool * ptr Bfunction) :=
  fun c => match compiled_fn_map c !! id with
           | None => Done (false, fn) c
           | Some second => Done (true, second) c
           end.

Definition insert_const_decl (id : HirId) (expr : ptr Bexpression)
  : M Context unit :=
  modify (fun c => set_compiled_consts (<[id := expr]> (compiled_consts c)) c).

Definition lookup_const_decl (id : HirId) (expr : ptr Bexpression)
  : M Context (bool * ptr Bexpression) :=
  fun c => match compiled_consts c !! id with
           | None => Done (false, expr) c
           | Some second => Done (true, second) c
           end.

(** *** Blocks and statements *)

(** Modelled from the spec: [Backend::block_add_statements], "attach
    statements to block".  Every call is logged, oldest first, with the
    block and the statements it received. *)
Definition block_add_statements (block : ptr Bblock)
    (stmts : list (ptr Bstatement))
    (log : list (ptr Bblock * list (ptr Bstatement)))
  : list (ptr Bblock * list (ptr Bstatement)) :=
  push_back log (block, stmts).

Definition push_block (scope : ptr Bblock) : M Context unit :=
  modify (fun c => set_blocks (push_back (scope_stack c) scope)
                              (push_back (statements c) [])
                              (attached c) c).

(** [pop_block] reads [scope_stack.back ()] and [statements.back ()]
    and pops both, without a check: on an empty stack the run has no
    defined behaviour. *)
Definition pop_block : M Context (ptr Bblock) :=
  fun c =>
    match back (scope_stack c) with
    | None => Aborted Undefined
    | Some block =>
        match back (statements c) with
        | None => Aborted Undefined
        | Some stmts =>
            Done block
                 (set_blocks (pop_back (scope_stack c))
                             (pop_back (statements c))
                             (block_add_statements block stmts (attached c))
                           c)
        end
    end.

Definition peek_enclosing_scope : M Context (ptr Bblock) :=
  fun c =>
    if decide (length (scope_stack c) = 0%nat) then Done nullptr c
    else match back (scope_stack c) with
         | None => Aborted Undefined
         | Some block => Done block c
         end.

Definition add_statement (stmt : ptr Bstatement) : M Context unit :=
  fun c =>
    match back (statements c) with
    | None => Aborted Undefined
    | Some stmts =>
        Done tt (set_blocks (scope_stack c)
                            (push_back (pop_back (statements c))
                                       (push_back stmts stmt))
                            (attached c) c)
    end.

(** *** Function activations *)

Definition push_fn (fn : ptr Bfunction) (ret_addr : ptr Bvariable)
  : M Context unit :=
  modify (fun c => set_fn_stack
                     (push_back (fn_stack c)
                                {| fndecl := fn; ret_addr := ret_addr |}) c).

(** [pop_fn] is [fn_stack.pop_back ()] and [peek_fn] is
    [fn_stack.back ()], both without a check of their own.  On a
    non-empty stack they are the list operations.  On an empty stack
    C++ defines no behaviour for them; no error is raised there, and
    the compiled program may well return from the call.  The run is
    marked [Undefined] and followed no further. *)
Definition pop_fn : M Context unit :=
  fun c => match back (fn_stack c) with
           | None => Aborted Undefined
           | Some _ => Done tt (set_fn_stack (pop_back (fn_stack c)) c)
           end.

Definition peek_fn : M Context fncontext :=
  fun c => match back (fn_stack c) with
           | None => Aborted Undefined
           | Some f => Done f c
           end.

(** The claim that a pop or a peek of an empty stack is a fatal error
    with which the compiler stops. *)
Definition empty_stack_is_fatal : Prop :=
  forall c : Context,
    (scope_stack c = [] -> exists a, fatal a /\ pop_block c = Aborted a)
    /\ (fn_stack c = [] ->
        exists a b, fatal a /\ fatal b
                    /\ pop_fn c = Aborted a /\ peek_fn c = Aborted b).

(** *** Declarations for the middle-end *)

Definition set_decls t v k f (c : Context) : Context :=
  {| fn_stack := fn_stack c; compiled_var_decls := compiled_var_decls c;
     compiled_type_map := compiled_type_map c;
     compiled_fn_map := compiled_fn_map c;
     compiled_consts := compiled_consts c; statements := statements c;
     scope_stack := scope_stack c; type_decls := t;
     var_decls := v; const_decls := k;
     func_decls := f; attached := attached c |}.

Definition push_type (t : ptr Btype) : M Context unit :=
  modify (fun c => set_decls (push_back (type_decls c) t) (var_decls c)
                             (const_decls c) (func_decls c) c).
Definition push_var (v : ptr Bvariable) : M Context unit :=
  modify (fun c => set_decls (type_decls c) (push_back (var_decls c) v)
                             (const_decls c) (func_decls c) c).
Definition push_const (k : ptr Bexpression) : M Context unit :=
  modify (fun c => set_decls (type_decls c) (var_decls c)
                             (push_back (const_decls c) k) (func_decls c) c).
Definition push_function (f : ptr Bfunction) : M Context unit :=
  modify (fun c => set_decls (type_decls c) (var_decls c) (const_decls c)
                             (push_back (func_decls c) f) c).

(** The loop of [function_completed] over [func_decls]. *)
Fixpoint function_completed_from (decls : list (ptr Bfunction))
    (fn : ptr Bfunction) : bool :=
  match decls with
  | [] => false
  | i :: decls' =>
      if decide (i = fn) then true else function_completed_from decls' fn
  end.

Definition function_completed (fn : ptr Bfunction) : M Context bool :=
  fun c => Done (function_completed_from (func_decls c) fn) c.

(** Modelled from the spec: [Backend::write_global_definitions], which
    "accepts the four ordered declaration sequences via a single batch"
    call; the call is modelled by the four sequences it receives, in the
    order of its parameters. *)
Definition write_global_definitions (type_decls : list (ptr Btype))
    (const_decls : list (ptr Bexpression)) (func_decls : list (ptr Bfunction))
    (var_decls : list (ptr Bvariable))
  : list (ptr Btype) * list (ptr Bexpression) * list (ptr Bfunction)
    * list (ptr Bvariable) :=
  (type_decls, const_decls, func_decls, var_decls).

Definition write_to_backend
  : M Context (list (ptr Btype) * list (ptr Bexpression)
               * list (ptr Bfunction) * list (ptr Bvariable)) :=
  fun c => Done (write_global_definitions (type_decls c) (const_decls c)
                                          (func_decls c) (var_decls c)) c.

(** *** [TyTyResolveCompile] *)

(** The body shared by the visits of the ADT, bool, integer and float
    types. *)
Definition compile_nominal (ref : HirId) : M Context (ptr Btype) :=
  r <- lookup_compiled_types ref nullptr ;;
  let '(ok, compiled_type) := r in
  rust_assert ok ;;;
  ret compiled_type.

Fixpoint compile (ty : TyBase) : M Context (ptr Btype) :=
  match ty with
  | ErrorType _ => stop Unreachable
  | UnitType _ => stop Unreachable
  | InferType _ => stop Unreachable
  | FnType _ => stop Unreachable
  | StructFieldType _ => stop Unreachable
  | ParamType _ => stop Unreachable
  | ADTType ref => compile_nominal ref
  | ArrayType _ capacity element =>
      let capacity_type := integer_type true 32 in
      let length := integer_constant_expression capacity_type capacity in
      element_type <- compile element ;;
      ret (array_type element_type length)
  | BoolType ref => compile_nominal ref
  | IntType ref _ => compile_nominal ref
  | UintType ref _ => compile_nominal ref
  | FloatType ref _ => compile_nominal ref
  end.

(** *** Sequences of calls

    A sequence of insertions into one cache, and the value that the
    sequence inserted last for an identity. *)
Fixpoint run_all {A} (f : A -> M Context unit) (l : list A)
  : M Context unit :=
  match l with
  | [] => ret tt
  | x :: l' => f x ;;; run_all f l'
  end.

Fixpoint latest {V} (id : HirId) (l : list (HirId * V)) : option V :=
  match l with
  | [] => None
  | (k, v) :: l' =>
      match latest id l' with
      | Some w => Some w
      | None => if decide (k = id) then Some v else None
      end
  end.

(** What a lookup answers after a sequence of insertions [l] made in
    a context that held [before] for the identity: found with the
    value inserted last, or with the one held before, or not found
    with the caller's [out] as it was. *)
Definition answer {V} (l : list (HirId * V)) (before : option V)
    (id : HirId) (out : V) : bool * V :=
  match latest id l with
  | Some v => (true, v)
  | None => match before with
            | Some v => (true, v)
            | None => (false, out)
            end
  end.

(** The common form of the four insertions, for a cache given as the
    field [getf] of the context and its update [setf]. *)
Definition upsert {V} (getf : Context -> gmap N V)
    (setf : gmap N V -> Context -> Context) (id : HirId) (v : V)
  : M Context unit :=
  modify (fun c => setf (<[id := v]> (getf c)) c).

(** Calls of [push_block], [pop_block] and [add_statement]; a run
    returns the blocks that the calls of [pop_block] returned. *)
Inductive op : Type :=
| Push (scope : ptr Bblock)
| Pop
| Add (stmt : ptr Bstatement).

Definition run_op (o : op) : M Context (list (ptr Bblock)) :=
  match o with
  | Push scope => push_block scope ;;; ret []
  | Pop => block <- pop_block ;; ret [block]
  | Add stmt => add_statement stmt ;;; ret []
  end.

Fixpoint run (ops : list op) : M Context (list (ptr Bblock)) :=
  match ops with
  | [] => ret []
  | o :: ops' =>
      r <- run_op o ;;
      rs <- run ops' ;;
      ret (r ++ rs)
  end.

(** Matched calls: a statement added, or a block pushed, filled by
    matched calls and popped. *)
#[warnings="-register-all"]
Inductive item : Type :=
| Stmt (stmt : ptr Bstatement)
| Block (scope : ptr Bblock) (body : list item).

Fixpoint calls (it : item) : list op :=
  match it with
  | Stmt stmt => [Add stmt]
  | Block scope body => Push scope :: flat_map calls body ++ [Pop]
  end.

(** The statements added while a block with this body is the
    innermost open block. *)
Definition own_statements (body : list item) : list (ptr Bstatement) :=
  flat_map (fun it => match it with
                      | Stmt stmt => [stmt]
                      | Block _ _ => []
                      end) body.

(** All the statements added between the push and the pop. *)
Fixpoint added_since_push (it : item) : list (ptr Bstatement) :=
  match it with
  | Stmt stmt => [stmt]
  | Block _ body => flat_map added_since_push body
  end.

(** The blocks in the order they are popped, each with the statements
    added while it was the innermost open block. *)
Fixpoint closed_blocks (it : item)
  : list (ptr Bblock * list (ptr Bstatement)) :=
  match it with
  | Stmt _ => []
  | Block scope body =>
      flat_map closed_blocks body ++ [(scope, own_statements body)]
  end.

Definition is_block (it : item) : Prop :=
  match it with Stmt _ => False | Block _ _ => True end.

(** The effect of a matched block on a context: the stacks are as
    before, the blocks closed inside are attached. *)
Definition closes (it : item) (c : Context) : Prop :=
  run (calls it) c
  = Done (closed_blocks it).*1
         (set_blocks (scope_stack c) (statements c)
                     (attached c ++ closed_blocks it) c).

(** The types [TyTyResolveCompile] looks up in the cache. *)
Definition nominal (ty : TyBase) : bool :=
  match get_kind ty with
  | ADT | BOOL | INT | UINT | FLOAT => true
  | _ => false
  end.

(** The materializer in the words of the specification: a nominal
    type is the cached target type of its defining reference; an
    array type is built from the materialized element type and a
    32-bit integer constant for the capacity; nothing else has a
    target type. *)
Inductive materializes (c : Context) : TyBase -> ptr Btype -> Prop :=
| materializes_nominal ty t :
    nominal ty = true ->
    compiled_type_map c !! get_ref ty = Some t ->
    materializes c ty t
| materializes_array ref capacity element t :
    materializes c element t ->
    materializes c (ArrayType ref capacity element)
      (array_type t (integer_constant_expression (integer_type true 32)
                                                 capacity)).

(** The reading of "the statements added since the corresponding
    push" that counts every statement added between the push and the
    pop of a block. *)
Definition attaches_all_added_since_push : Prop :=
  forall scope body c, exists r c',
    run (calls (Block scope body)) c = Done r c'
    /\ last (attached c') = Some (scope, added_since_push (Block scope body)).

(** A context with empty caches and stacks. *)
Definition blank : Context :=
  {| fn_stack := []; compiled_var_decls := ∅; compiled_type_map := ∅;
     compiled_fn_map := ∅; compiled_consts := ∅; statements := [];
     scope_stack := []; type_decls := []; var_decls := [];
     const_decls := []; func_decls := []; attached := [] |}.

(** *** The constructor

    The loop of the constructor over the builtin types of the name
    resolver, given by their node identities, on a context with empty
    members.  [lookup_type_by_node_id] and [lookup_type] are the lookups
    of the type-check context and [TyTyCompile_compile] is
    [TyTyCompile::compile (backend, lookup)], all three outside the
    sources. *)
Section Constructor.
Variable lookup_type_by_node_id : NodeId -> option HirId.
Variable lookup_type : HirId -> option (ptr TyBase).
Variable TyTyCompile_compile : ptr TyBase -> abort + ptr Btype.

Fixpoint insert_builtins (builtins : list NodeId) : M Context unit :=
  match builtins with
  | [] => ret tt
  | it :: builtins' =>
      match lookup_type_by_node_id it with
      | None => rust_assert false
      | Some ref =>
          rust_assert true ;;;
          match lookup_type ref with
          | None => rust_assert false
          | Some lookup =>
              rust_assert true ;;;
              match TyTyCompile_compile lookup with
              | inl a => stop a
              | inr compiled =>
                  modify (fun c => set_compiled_type_map
                                     (<[ref := compiled]> (compiled_type_map c))
                                     c) ;;;
                  insert_builtins builtins'
              end
          end
      end
  end.

Definition Context_new (builtins : list NodeId) : result Context unit :=
  insert_builtins builtins blank.

(** A builtin the constructor can register: it has a type identity, a
    type and a compiled type. *)
Definition registrable (it : NodeId) : Prop :=
  exists ref lookup compiled,
    lookup_type_by_node_id it = Some ref
    /\ lookup_type ref = Some lookup
    /\ TyTyCompile_compile lookup = inr compiled.

End Constructor.

(** *** Calls of the member functions that change a context *)

Inductive call : Type :=
| InsertCompiledType (id : HirId) (type : ptr Btype)
| InsertVarDecl (id : HirId) (decl : ptr Bvariable)
| InsertFunctionDecl (id : HirId) (fn : ptr Bfunction)
| InsertConstDecl (id : HirId) (expr : ptr Bexpression)
| PushBlock (scope : ptr Bblock)
| PopBlock
| AddStatement (stmt : ptr Bstatement)
| PushFn (fn : ptr Bfunction) (ret_addr : ptr Bvariable)
| PopFn
| PushType (t : ptr Btype)
| PushVar (v : ptr Bvariable)
| PushConst (k : ptr Bexpression)
| PushFunction (f : ptr Bfunction).

Definition exec_call (k : call) : M Context unit :=
  match k with
  | InsertCompiledType id type => insert_compiled_type id type
  | InsertVarDecl id decl => insert_var_decl id decl
  | InsertFunctionDecl id fn => insert_function_decl id fn
  | InsertConstDecl id expr => insert_const_decl id expr
  | PushBlock scope => push_block scope
  | PopBlock => pop_block ;;; ret tt
  | AddStatement stmt => add_statement stmt
  | PushFn fn ret_addr => push_fn fn ret_addr
  | PopFn => pop_fn
  | PushType t => push_type t
  | PushVar v => push_var v
  | PushConst k => push_const k
  | PushFunction f => push_function f
  end.

Fixpoint exec (calls : list call) : M Context unit :=
  match calls with
  | [] => ret tt
  | k :: calls' => exec_call k ;;; exec calls'
  end.

(** What a sequence of calls inserts into each cache and pushes on each
    stack and list, in the order of the calls. *)
Definition type_inserts (calls : list call) : list (HirId * ptr Btype) :=
  flat_map (fun k => match k with
                     | InsertCompiledType id t => [(id, t)]
                     | _ => []
                     end) calls.
Definition var_inserts (calls : list call) : list (HirId * ptr Bvariable) :=
  flat_map (fun k => match k with
                     | InsertVarDecl id v => [(id, v)]
                     | _ => []
                     end) calls.
Definition function_inserts (calls : list call)
  : list (HirId * ptr Bfunction) :=
  flat_map (fun k => match k with
                     | InsertFunctionDecl id f => [(id, f)]
                     | _ => []
                     end) calls.
Definition const_inserts (calls : list call)
  : list (HirId * ptr Bexpression) :=
  flat_map (fun k => match k with
                     | InsertConstDecl id e => [(id, e)]
                     | _ => []
                     end) calls.
Definition pushed_types (calls : list call) : list (ptr Btype) :=
  flat_map (fun k => match k with PushType t => [t] | _ => [] end) calls.
Definition pushed_vars (calls : list call) : list (ptr Bvariable) :=
  flat_map (fun k => match k with PushVar v => [v] | _ => [] end) calls.
Definition pushed_consts (calls : list call) : list (ptr Bexpression) :=
  flat_map (fun k => match k with PushConst e => [e] | _ => [] end) calls.
Definition pushed_functions (calls : list call) : list (ptr Bfunction) :=
  flat_map (fun k => match k with PushFunction f => [f] | _ => [] end) calls.

(** The caches and the declaration lists of the context [c'] are those
    of [c] with what the calls insert and push, in their order. *)
Definition members_follow (calls : list call) (c c' : Context) : Prop :=
  compiled_type_map c'
  = foldl (fun m kv => <[kv.1 := kv.2]> m) (compiled_type_map c)
          (type_inserts calls)
  /\ compiled_var_decls c'
     = foldl (fun m kv => <[kv.1 := kv.2]> m) (compiled_var_decls c)
             (var_inserts calls)
  /\ compiled_fn_map c'
     = foldl (fun m kv => <[kv.1 := kv.2]> m) (compiled_fn_map c)
             (function_inserts calls)
  /\ compiled_consts c'
     = foldl (fun m kv => <[kv.1 := kv.2]> m) (compiled_consts c)
             (const_inserts calls)
  /\ type_decls c' = type_decls c ++ pushed_types calls
  /\ var_decls c' = var_decls c ++ pushed_vars calls
  /\ const_decls c' = const_decls c ++ pushed_consts calls
  /\ func_decls c' = func_decls c ++ pushed_functions calls.

(** The numbers of blocks and of function activations that a sequence
    of calls opens and closes; [depths_follow], below, relates them to
    the depths of the stacks. *)
Definition count_calls (P : call -> bool) (calls : list call) : nat :=
  length (filter (fun k => P k = true) calls).
Definition is_PushBlock (k : call) : bool :=
  match k with PushBlock _ => true | _ => false end.
Definition is_PopBlock (k : call) : bool :=
  match k with PopBlock => true | _ => false end.
Definition is_PushFn (k : call) : bool :=
  match k with PushFn _ _ => true | _ => false end.
Definition is_PopFn (k : call) : bool :=
  match k with PopFn => true | _ => false end.

(** The depths of the three stacks in [c'] are those in [c] with the
    pushes of the calls added and their pops taken away. *)
Definition depths_follow (calls : list call) (c c' : Context) : Prop :=
  (length (scope_stack c') + count_calls is_PopBlock calls
   = length (scope_stack c) + count_calls is_PushBlock calls)%nat
  /\ (length (statements c') + count_calls is_PopBlock calls
      = length (statements c) + count_calls is_PushBlock calls)%nat
  /\ (length (fn_stack c') + count_calls is_PopFn calls
      = length (fn_stack c) + count_calls is_PushFn calls)%nat.

(** Sequences of calls in which every [push_fn] has its [pop_fn], as the
    lowering of nested functions makes them. *)
Inductive fn_matched : list call -> Prop :=
| fn_matched_nil : fn_matched []
| fn_matched_other k calls :
    is_PushFn k = false -> is_PopFn k = false ->
    fn_matched calls -> fn_matched (k :: calls)
| fn_matched_fn fn ret_addr inner calls :
    fn_matched inner -> fn_matched calls ->
    fn_matched (PushFn fn ret_addr :: inner ++ PopFn :: calls).

(** *** Types that the materializer lowers

    The nominal type at the bottom of the arrays of a type, and the
    target type that the arrays of a type make of the target type [t] of
    that bottom. *)
Fixpoint leaf (ty : TyBase) : TyBase :=
  match ty with
  | ArrayType _ _ element => leaf element
  | _ => ty
  end.

Fixpoint arrays_over (ty : TyBase) (t : ptr Btype) : ptr Btype :=
  match ty with
  | ArrayType _ capacity element =>
      array_type (arrays_over element t)
                 (integer_constant_expression (integer_type true 32) capacity)
  | _ => t
  end.

End Context.

(** A backend to run the definitions on: its types are terms that show
    how they were built, its other entities are numbered. *)
Module Sample.
#[warnings="-register-all"]
Inductive SBtype : Type :=
| Named (name : string)
| Integer (is_unsigned : bool) (bits : Z)
| Array (element : option SBtype) (length : option (option SBtype * N)).

Inductive SBexpression : Type :=
| IntegerConstant (type : option SBtype) (value : N).

Definition backend : Backend :=
  {| Btype := SBtype; Bexpression := SBexpression; Bstatement := N;
     Bblock := N; Bfunction := N; Bvariable := N;
     Bfunction_eq_dec := N.eq_dec;
     integer_type := fun is_unsigned bits => Some (Integer is_unsigned bits);
     integer_constant_expression := fun t v => Some (IntegerConstant t v);
     array_type := fun e l =>
       Some (Array e (match l with
                      | Some (IntegerConstant t v) => Some (t, v)
                      | None => None
                      end)) |}.

(** Numbered blocks and statements. *)
Definition stmt (k : N) : @item backend := @Stmt backend (Some k).
Definition block (k : N) (body : list (@item backend)) : @item backend :=
  @Block backend (Some k) body.
Definition push (k : N) : @op backend := @Push backend (Some k).
Definition add (k : N) : @op backend := @Add backend (Some k).
Definition pop : @op backend := @Pop backend.
Definition popped (k : N) (stmts : list N)
  : option (@Bblock backend) * list (option (@Bstatement backend)) :=
  (Some k, Some <$> stmts).

(** The context in which a call returned. *)
Definition context_of {A} (r : result (@Context backend) A)
  : @Context backend :=
  match r with
  | Done _ c => c
  | Aborted _ => @blank backend
  end.

(** Calls that lower a function with one block, inserting into two
    caches on the way. *)
Definition lowering : list (@call backend) :=
  [ @InsertCompiledType backend 1 (Some (Named "a"));
    @PushFn backend (Some 4) (Some 5);
    @PushBlock backend (Some 1);
    @InsertVarDecl backend 1 (Some 7);
    @AddStatement backend (Some 3);
    @PushType backend (Some (Named "a"));
    @PopBlock backend;
    @PushFunction backend (Some 4);
    @InsertCompiledType backend 1 (Some (Named "b")) ].

(** The builtins [i32] (node 10, type identity 100) and [u8] (node 11,
    type identity 101) of a name resolver, their types, and a compiler
    of builtin types. *)
Definition builtin_type_ids (it : NodeId) : option HirId :=
  ({[ 10 := 100; 11 := 101 ]} : gmap N N) !! it.
Definition builtin_types (ref : HirId) : option (option TyBase) :=
  ({[ 100 := Some (IntType 100 I32);
      101 := Some (UintType 101 U8) ]} : gmap N (option TyBase)) !! ref.
Definition compile_builtin (t : option TyBase) : abort + option SBtype :=
  match t with
  | Some (IntType _ _) => inr (Some (Integer false 32))
  | Some (UintType _ _) => inr (Some (Integer true 8))
  | _ => inl Unreachable
  end.

(** A context in which the type [f64], of defining reference 103, is
    registered. *)
Definition with_f64 : @Context backend :=
  @set_compiled_type_map backend {[ 103 := Some (Named "f64") ]}
                         (@blank backend).
End Sample.
End Compile.

(** ** The desugared syntax tree ([HIR]) *)

Module HIR.

(** What the checker reads of a node: its [Analysis::NodeMapping]
    ([get_crate_num], [get_nodeid], [get_hirid]) and its location
    ([get_locus], [get_locus_slow]). *)
Record Node : Type := {
  crate_num : CrateNum;
  nodeid : NodeId;
  hirid : HirId;
  locus : Location;
}.

(** [HIR::Literal::LitType]: the three kinds the checker handles and the
    others, which reach the [default] label of its switch. *)
Inductive LitType := INT | FLOAT | BOOL | OTHER_LIT.

(** The type hint of a literal: the twelve [CORETYPE_] values the
    checker names and the others, which reach [default]. *)
Inductive CoreType :=
| CORETYPE_I8 | CORETYPE_I16 | CORETYPE_I32 | CORETYPE_I64 | CORETYPE_I128
| CORETYPE_U8 | CORETYPE_U16 | CORETYPE_U32 | CORETYPE_U64 | CORETYPE_U128
| CORETYPE_F32 | CORETYPE_F64 | CORETYPE_OTHER.

(** [HIR::ArrayElems] and its two subclasses. *)
Inductive ArrayElems (E : Type) : Type :=
| ArrayElemsValues (values : list E)
| ArrayElemsCopied (elem_to_copy : E) (num_elements : N).
Arguments ArrayElemsValues {E} values.
Arguments ArrayElemsCopied {E} elem_to_copy num_elements.

(** The expression classes that [TypeCheckExpr] visits.  The children
    are typed [Expr] where the source has a more special class (the
    blocks of an [if] are [BlockExpr]s).  [OtherExpr] stands for every
    expression class for which [TypeCheckExpr] defines no [visit]. *)
#[warnings="-register-all"]
Inductive Expr : Type :=
| ReturnExpr (n : Node) (return_expr : ptr Expr)
| CallExpr (n : Node) (fnexpr : Expr) (params : list Expr)
| AssignmentExpr (n : Node) (lhs rhs : Expr)
| IdentifierExpr (n : Node)
| LiteralExpr (n : Node) (lit_type : LitType) (type_hint : CoreType)
| ArithmeticOrLogicalExpr (n : Node) (lhs rhs : Expr)
| ComparisonExpr (n : Node) (lhs rhs : Expr)
| LazyBooleanExpr (n : Node) (lhs rhs : Expr)
| IfExpr (n : Node) (if_condition if_block : Expr)
| IfExprConseqElse (n : Node) (if_condition if_block else_block : Expr)
| IfExprConseqIf (n : Node) (if_condition if_block conseq_if_expr : Expr)
| BlockExpr (n : Node)
| ArrayIndexExpr (n : Node) (array_expr index_expr : Expr)
| ArrayExpr (n : Node) (internal_elements : ArrayElems Expr)
| StructExprStructFields (n : Node)
| OtherExpr (n : Node).

Definition get_node (e : Expr) : Node :=
  match e with
  | ReturnExpr n _ | CallExpr n _ _ | AssignmentExpr n _ _
  | IdentifierExpr n | LiteralExpr n _ _ | ArithmeticOrLogicalExpr n _ _
  | ComparisonExpr n _ _ | LazyBooleanExpr n _ _ | IfExpr n _ _
  | IfExprConseqElse n _ _ _ | IfExprConseqIf n _ _ _ | BlockExpr n
  | ArrayIndexExpr n _ _ | ArrayExpr n _ | StructExprStructFields n
  | OtherExpr n => n
  end.

(** Modelled from the spec: [ArrayElems::get_num_elements], declared
    with the syntax tree.  For an explicit list it is "the syntactic
    element count"; for a copied element it is a field of the node. *)
Definition get_num_elements {E} (elems : ArrayElems E) : N :=
  match elems with
  | ArrayElemsValues values => N.of_nat (length values)
  | ArrayElemsCopied _ num_elements => num_elements
  end.

End HIR.

(** ** The expression type checker ([Rust::Resolver]) *)

Module Resolver.
Import TyTy HIR.

(** A diagnostic of [rust_error_at]: the location and the format string
    (the text of the expression that fills a [%s] is not modelled). *)
Record Diag : Type := { diag_locus : Location; diag_msg : string }.

(** [Definition] of the name resolver. *)
Record Definition_ : Type := { parent : NodeId }.

(** Modelled from the spec: the [TypeCheckContext] singleton, declared
    in [rust-hir-type-check.h], and the diagnostics sink.  [resolved] is
    "the identity-to-type table", which holds the pointers that
    [insert_type] receives; [builtins] holds the "pre-registered type
    objects" of the primitive type names; [return_type_stack] the return
    types of the open function activations; [diagnostics] what
    [rust_error_at] reported so far, oldest first. *)
Record State : Type := {
  resolved : gmap N (ptr TyBase);
  builtins : gmap string (ptr TyBase);
  return_type_stack : list (ptr TyBase);
  diagnostics : list Diag;
}.

Definition set_resolved (m : gmap N (ptr TyBase)) (s : State) : State :=
  {| resolved := m; builtins := builtins s;
     return_type_stack := return_type_stack s;
     diagnostics := diagnostics s |}.
Definition set_diagnostics (d : list Diag) (s : State) : State :=
  {| resolved := resolved s; builtins := builtins s;
     return_type_stack := return_type_stack s;
     diagnostics := d |}.

(** The state with [type] recorded for [id]. *)
Definition with_type (id : HirId) (type : ptr TyBase) (s : State) : State :=
  set_resolved (<[id := type]> (resolved s)) s.

(** Modelled from the spec: [TypeCheckContext::insert_type], "records
    the result against the expression's node identity", an overwrite
    when a type is recorded already. *)
Definition insert_type (id : HirId) (type : ptr TyBase) : M State unit :=
  modify (with_type id type).

(** Modelled from the spec: [TypeCheckContext::lookup_type], the lookup
    in the identity-to-type table; [None] is the result [false]. *)
Definition lookup_type (id : HirId) : M State (option (ptr TyBase)) :=
  fun s => Done (resolved s !! id) s.

(** Modelled from the spec: [TypeCheckContext::lookup_builtin], the
    lookup of a primitive type name; [None] is the result [false]. *)
Definition lookup_builtin (name : string) : M State (option (ptr TyBase)) :=
  fun s => Done (builtins s !! name) s.

(** Modelled from the spec: [TypeCheckContext::peek_return_type], "the
    enclosing function's declared return type"; outside every function
    activation there is none and the result is [nullptr]. *)
Definition peek_return_type : M State (ptr TyBase) :=
  fun s => match back (return_type_stack s) with
           | None => Done nullptr s
           | Some ret_ty => Done ret_ty s
           end.

(** The state after some diagnostics are reported. *)
Definition with_errors (errors : list Diag) (s : State) : State :=
  set_diagnostics (diagnostics s ++ errors) s.

Definition rust_error_at (l : Location) (msg : string) : M State unit :=
  modify (with_errors [ {| diag_locus := l; diag_msg := msg |} ]).

Definition rust_fatal_error {A} (l : Location) (msg : string) : M State A :=
  stop (FatalError l msg).

(** The members of a [TypeCheckExpr] object. *)
Record visitor : Type := {
  infered : ptr TyBase;
  infered_array_elems : ptr TyBase;
  is_final_expr : bool;
}.

Definition TypeCheckExpr (is_final_expr : bool) : visitor :=
  {| infered := nullptr; infered_array_elems := nullptr;
     is_final_expr := is_final_expr |}.
Definition set_infered (t : ptr TyBase) (v : visitor) : visitor :=
  {| infered := t; infered_array_elems := infered_array_elems v;
     is_final_expr := is_final_expr v |}.
Definition set_infered_array_elems (t : ptr TyBase) (v : visitor) : visitor :=
  {| infered := infered v; infered_array_elems := t;
     is_final_expr := is_final_expr v |}.

(** What a call of [combine] does: it ends the run, or it returns a
    type or [nullptr] after reporting some diagnostics. *)
Inductive combined : Type :=
| CombineAborted (a : abort)
| Combined (t : ptr TyBase) (errors : list Diag).

(** The collaborators of the checker whose code is outside the sources:
    the name resolver, the node mappings, [TyBase::combine] and the
    three checkers [TypeCheckExpr] hands over to. *)
Class Collaborators : Type := {
  (* Resolver::Resolver *)
  lookup_resolved_name : NodeId -> option NodeId;
  lookup_definition : NodeId -> option Definition_;
  (* Analysis::Mappings *)
  lookup_node_to_hir : CrateNum -> NodeId -> option HirId;
  lookup_location : HirId -> Location;
  (* TyTy: [lhs->combine (rhs)] for a receiver that is not nullptr.
     "combine never mutates an operand, it returns a (possibly new)
     result"; a failure is reported. *)
  combine : TyBase -> ptr TyBase -> combined;
  (* TyTy::TypeCheckCallExpr::go (lookup, expr) *)
  TypeCheckCallExpr_go : ptr TyBase -> Expr -> M State (ptr TyBase);
  (* TypeCheckStructExpr::Resolve (&struct_expr) *)
  TypeCheckStructExpr_Resolve : Expr -> M State (ptr TyBase);
  (* TypeCheckExpr::visit (HIR::BlockExpr &), declared in the class and
     defined outside the sources *)
  visit_BlockExpr : Expr -> visitor -> M State visitor;
}.

(** Modelled from the spec:
    [TyTyExtractorArray::ExtractElementTypeFromArray], "the overall type
    is the array's element type"; called on array types only. *)
Definition ExtractElementTypeFromArray (t : TyBase) : ptr TyBase :=
  match t with
  | ArrayType _ _ element => Some element
  | _ => nullptr
  end.

Section TypeCheckExpr.
Context `{Collaborators}.

Definition report (errors : list Diag) : M State unit :=
  modify (with_errors errors).

(** [lhs->combine (rhs)] for a pointer [lhs]. *)
Definition combine_ptr (lhs rhs : ptr TyBase) : M State (ptr TyBase) :=
  match lhs with
  | None => stop Undefined
  | Some l =>
      match combine l rhs with
      | CombineAborted a => stop a
      | Combined t errors => report errors ;;; ret t
      end
  end.

(** The state in which [Resolve] returns the type [t] of the
    expression [id], entered after the visit in state [s]. *)
Definition recorded (id : HirId) (t : ptr TyBase) (s : State) : State :=
  match t with
  | Some _ => with_type id t s
  | None => s
  end.

(** [TypeCheckExpr::Resolve], for an expression whose [accept_vis]
    runs [visit_expr] and whose identity is [id]. *)
Definition Resolve_with (visit_expr : visitor -> M State visitor)
    (id : HirId) (is_final_expr : bool) : M State (ptr TyBase) :=
  resolver <- visit_expr (TypeCheckExpr is_final_expr) ;;
  (if bool_decide (infered resolver <> nullptr)
   then insert_type id (infered resolver)
   else ret tt) ;;;
  ret (infered resolver).

(** [elems.iterate] of [visit (HIR::ArrayElemsValues &)]: every
    element is resolved and its type pushed on [types]. *)
Definition iterate (Resolve_elem : Expr -> M State (ptr TyBase))
  : list Expr -> list (ptr TyBase) -> M State (list (ptr TyBase)) :=
  fix go (values : list Expr) (types : list (ptr TyBase)) :=
    match values with
    | [] => ret types
    | e :: values' =>
        t <- Resolve_elem e ;;
        go values' (push_back types t)
    end.

(** The loop [for (size_t i = 1; i < types.size (); i++)] of
    [visit (HIR::ArrayElemsValues &)], over [types] from index 1 on. *)
Fixpoint combine_from (infered_array_elems : ptr TyBase)
    (rest : list (ptr TyBase)) : M State (ptr TyBase) :=
  match rest with
  | [] => ret infered_array_elems
  | t :: rest' =>
      c <- combine_ptr infered_array_elems t ;;
      combine_from c rest'
  end.

(** The [switch] of [visit (HIR::LiteralExpr &)]: the name of the
    builtin that is looked up, or [None] at [gcc_unreachable ()]. *)
Definition literal_builtin (lit_type : LitType) (type_hint : CoreType)
  : option string :=
  match lit_type with
  | INT =>
      Some match type_hint with
           | CORETYPE_I8 => "i8"
           | CORETYPE_I16 => "i16"
           | CORETYPE_I32 => "i32"
           | CORETYPE_I64 => "i64"
           | CORETYPE_I128 => "i128"
           | CORETYPE_U8 => "u8"
           | CORETYPE_U16 => "u16"
           | CORETYPE_U32 => "u32"
           | CORETYPE_U64 => "u64"
           | CORETYPE_U128 => "u128"
           | CORETYPE_F32 => "f32"
           | CORETYPE_F64 => "f64"
           | CORETYPE_OTHER => "i32"
           end%string
  | FLOAT =>
      Some match type_hint with
           | CORETYPE_F32 => "f32"
           | CORETYPE_F64 => "f64"
           | _ => "f32"
           end%string
  | BOOL => Some "bool"%string
  | OTHER_LIT => None
  end.


Definition visit_binary (Resolve_lhs Resolve_rhs : M State (ptr TyBase))
    (v : visitor) : M State visitor :=
  lhs <- Resolve_lhs ;;
  rhs <- Resolve_rhs ;;
  t <- combine_ptr lhs rhs ;;
  ret (set_infered t v).

(** [visit (HIR::CallExpr &)] and [visit (HIR::IdentifierExpr &)] do
    not call the checker again. *)
Definition visit_CallExpr (expr : Expr) (n : Node) (fnexpr : Expr)
    (v : visitor) : M State visitor :=
  let fn_node_id := nodeid (get_node fnexpr) in
  match lookup_resolved_name fn_node_id with
  | None =>
      rust_error_at (locus n) "Failed to lookup reference for node: %s" ;;;
      ret v
  | Some ref_node_id =>
      match lookup_node_to_hir (crate_num n) ref_node_id with
      | None =>
          rust_error_at (locus n) "reverse lookup failure" ;;;
          ret v
      | Some ref =>
          found <- lookup_type ref ;;
          match found with
          | None =>
              rust_error_at (locus n) "consider giving this a type: %s" ;;;
              ret v
          | Some lookup =>
              t <- TypeCheckCallExpr_go lookup expr ;;
              ret (set_infered t v)
          end
      end
  end.

Definition visit_IdentifierExpr (n : Node) (v : visitor)
  : M State visitor :=
  let ast_node_id := nodeid n in
  match lookup_resolved_name ast_node_id with
  | None =>
      rust_error_at (locus n) "Failed to lookup reference for node: %s" ;;;
      ret v
  | Some ref_node_id =>
      match lookup_definition ref_node_id with
      | None =>
          rust_error_at (locus n) "unknown reference" ;;;
          ret v
      | Some def =>
          match lookup_node_to_hir (crate_num n) (parent def) with
          | None =>
              rust_error_at (locus n) "reverse lookup failure" ;;;
              ret v
          | Some ref =>
              found <- lookup_type ref ;;
              match found with
              | None =>
                  rust_error_at (lookup_location ref)
                                "consider giving this a type: %s" ;;;
                  ret v
              | Some lookup => ret (set_infered lookup v)
              end
          end
      end
  end.

Definition visit_LiteralExpr (lit_type : LitType) (type_hint : CoreType)
    (v : visitor) : M State visitor :=
  match literal_builtin lit_type type_hint with
  | None => stop Unreachable
  | Some name =>
      found <- lookup_builtin name ;;
      match found with
      | None => rust_assert false ;;; ret v
      | Some t => rust_assert true ;;; ret (set_infered t v)
      end
  end.

Fixpoint visit (expr : Expr) (v : visitor) {struct expr}
  : M State visitor :=
  let Resolve (e : Expr) (is_final_expr : bool) :=
    Resolve_with (visit e) (hirid (get_node e)) is_final_expr in
  match expr with
  | ReturnExpr n return_expr =>
      ret_ty <- peek_return_type ;;
      rust_assert (bool_decide (ret_ty <> nullptr)) ;;;
      expr_ty <- match return_expr with
                 | None => stop Undefined
                 | Some e => Resolve e false
                 end ;;
      t <- combine_ptr ret_ty expr_ty ;;
      ret (set_infered t v)
  | CallExpr n fnexpr _ => visit_CallExpr expr n fnexpr v
  | AssignmentExpr n lhs rhs =>
      l <- Resolve lhs false ;;
      r <- Resolve rhs false ;;
      t <- combine_ptr l r ;;
      (* need to overrite the lhs type with this combination *)
      insert_type (hirid (get_node lhs)) t ;;;
      ret (set_infered t v)
  | IdentifierExpr n => visit_IdentifierExpr n v
  | LiteralExpr n lit_type type_hint =>
      visit_LiteralExpr lit_type type_hint v
  | ArithmeticOrLogicalExpr n lhs rhs =>
      visit_binary (Resolve lhs false) (Resolve rhs false) v
  | ComparisonExpr n lhs rhs =>
      visit_binary (Resolve lhs false) (Resolve rhs false) v
  | LazyBooleanExpr n lhs rhs =>
      visit_binary (Resolve lhs false) (Resolve rhs false) v
  | IfExpr n if_condition if_block =>
      Resolve if_condition false ;;;
      Resolve if_block false ;;;
      (* if without else always resolves to unit type *)
      ret (set_infered (Some (UnitType (hirid n))) v)
  | IfExprConseqElse n if_condition if_block else_block =>
      expected <- (if is_final_expr v then peek_return_type
                   else ret (Some (UnitType (hirid n)))) ;;
      Resolve if_condition (is_final_expr v) ;;;
      if_blk_ty <- Resolve if_block false ;;
      else_blk_ty <- Resolve else_block false ;;
      if is_final_expr v then
        t1 <- combine_ptr expected if_blk_ty ;;
        t2 <- combine_ptr t1 else_blk_ty ;;
        ret (set_infered t2 v)
      else ret (set_infered expected v)
  | IfExprConseqIf n if_condition if_block conseq_if_expr =>
      Resolve if_condition false ;;;
      Resolve if_block false ;;;
      Resolve conseq_if_expr false ;;;
      ret (set_infered (Some (UnitType (hirid n))) v)
  | BlockExpr n => visit_BlockExpr expr v
  | ArrayIndexExpr n array_expr index_expr =>
      (* FIXME this should be size type *)
      let size_ty := IntType (hirid (get_node index_expr)) I32 in
      index_ty <- Resolve index_expr false ;;
      resolved <- combine_ptr (Some size_ty) index_ty ;;
      rust_assert (bool_decide (resolved <> nullptr)) ;;;
      v' <- visit array_expr v ;;
      match infered v' with
      | None => stop Undefined
      | Some t =>
          if bool_decide (get_kind t <> ARRAY) then
            rust_fatal_error (locus (get_node array_expr))
                             "expected an ArrayType for index expression"
          else
            (* extract the element type out now from the base type *)
            ret (set_infered (ExtractElementTypeFromArray t) v')
      end
  | ArrayExpr n elements =>
      let num_elems := get_num_elements elements in
      v' <- match elements with
            | ArrayElemsValues values =>
                types <- iterate (fun e => Resolve e false) values [] ;;
                match types with
                | [] => stop Undefined
                | t0 :: rest =>
                    t <- combine_from t0 rest ;;
                    ret (set_infered_array_elems t v)
                end
            | ArrayElemsCopied elem_to_copy _ =>
                t <- Resolve elem_to_copy false ;;
                ret (set_infered_array_elems t v)
            end ;;
      match infered_array_elems v' with
      | None => rust_assert false ;;; ret v'
      | Some element =>
          rust_assert true ;;;
          ret (set_infered
                 (Some (ArrayType (hirid n) num_elems element)) v')
      end
  | StructExprStructFields n =>
      t <- TypeCheckStructExpr_Resolve expr ;;
      ret (set_infered t v)
  | OtherExpr n => ret v
  end.

(** [TypeCheckExpr::Resolve (expr, is_final_expr)]. *)
Definition Resolve (expr : Expr) (is_final_expr : bool)
  : M State (ptr TyBase) :=
  Resolve_with (visit expr) (hirid (get_node expr)) is_final_expr.

(** *** The words of the specification

    "Resolve every element": the elements are resolved one after the
    other, in listing order, each in the state the one before left. *)
Inductive resolves_each
  : list Expr -> State -> list (ptr TyBase) -> State -> Prop :=
| resolves_none s : resolves_each [] s [] s
| resolves_next e es s t s1 ts s2 :
    Resolve e false s = Done t s1 ->
    resolves_each es s1 ts s2 ->
    resolves_each (e :: es) s (t :: ts) s2.

(** "Then left-fold combine across all element types": the type
    folded so far is combined with the next one; the fold has a
    result when every combine returns a type, and it reports what
    the combines report. *)
Fixpoint fold_combine (acc : TyBase) (rest : list (ptr TyBase))
  : option (TyBase * list Diag) :=
  match rest with
  | [] => Some (acc, [])
  | t :: rest' =>
      match combine acc t with
      | Combined (Some u) errors =>
          match fold_combine u rest' with
          | Some (r, errors') => Some (r, errors ++ errors')
          | None => None
          end
      | _ => None
      end
  end.

(** A call expression fails with one diagnostic at its own location:
    [Resolve] returns [nullptr], the message is added to the
    diagnostics and the type table is as before. *)
Definition fails_with (call : Expr) (is_final_expr : bool) (s : State)
    (msg : string) : Prop :=
  exists s',
    Resolve call is_final_expr s = Done nullptr s'
    /\ diagnostics s'
       = diagnostics s ++ [ {| diag_locus := locus (get_node call);
                               diag_msg := msg |} ]
    /\ resolved s' = resolved s.

(** *** Resolving twice

    The state [s] with the types [d] recorded over its own and the
    diagnostics [errors] reported. *)
Definition extended (d : gmap N (ptr TyBase)) (errors : list Diag)
    (s : State) : State :=
  {| resolved := d ∪ resolved s; builtins := builtins s;
     return_type_stack := return_type_stack s;
     diagnostics := diagnostics s ++ errors |}.

(** Two states that record the same types for the identities in [R]
    and have the same builtins and return types. *)
Definition agree (R : HirId -> Prop) (s a : State) : Prop :=
  (forall id, R id -> resolved s !! id = resolved a !! id)
  /\ builtins s = builtins a
  /\ return_type_stack s = return_type_stack a.

(** A computation that only adds to the state and that reads of it the
    types recorded for the identities in [R], the builtins and the
    return types at most: where it returns, it records some types and
    reports some diagnostics, and it returns the same, recording and
    reporting the same, in every state that agrees on [R], whatever
    other types are recorded there and whatever diagnostics were
    reported before. *)
Definition stable (R : HirId -> Prop) {A} (m : M State A) : Prop :=
  forall s x s',
    m s = Done x s' ->
    exists d errors,
      s' = extended d errors s
      /\ forall a, agree R s a -> m a = Done x (extended d errors a).

(** The checkers outside the sources are stable: they only add to the
    state, and do the same whatever the diagnostics reported before and
    the types recorded for identities outside [R]. *)
Definition collaborators_stable (R : HirId -> Prop) : Prop :=
  (forall expr v, stable R (visit_BlockExpr expr v))
  /\ (forall lookup expr, stable R (TypeCheckCallExpr_go lookup expr))
  /\ (forall expr, stable R (TypeCheckStructExpr_Resolve expr)).

(** The declaration whose type [visit (HIR::IdentifierExpr &)] and
    [visit (HIR::CallExpr &)] look up in the type table. *)
Definition identifier_reference (n : Node) : option HirId :=
  match lookup_resolved_name (nodeid n) with
  | None => None
  | Some ref_node_id =>
      match lookup_definition ref_node_id with
      | None => None
      | Some def => lookup_node_to_hir (crate_num n) (parent def)
      end
  end.

Definition call_reference (n : Node) (fnexpr : Expr) : option HirId :=
  match lookup_resolved_name (nodeid (get_node fnexpr)) with
  | None => None
  | Some ref_node_id => lookup_node_to_hir (crate_num n) ref_node_id
  end.

Definition within (R : HirId -> Prop) (ref : option HirId) : Prop :=
  match ref with
  | Some id => R id
  | None => True
  end.

(** The declarations that the visit of an expression looks up in the
    type table are in [R]. *)
Fixpoint reads_within (R : HirId -> Prop) (expr : Expr) : Prop :=
  match expr with
  | ReturnExpr _ None => True
  | ReturnExpr _ (Some e) => reads_within R e
  | CallExpr n fnexpr _ => within R (call_reference n fnexpr)
  | IdentifierExpr n => within R (identifier_reference n)
  | AssignmentExpr _ lhs rhs
  | ArithmeticOrLogicalExpr _ lhs rhs
  | ComparisonExpr _ lhs rhs
  | LazyBooleanExpr _ lhs rhs
  | IfExpr _ lhs rhs
  | ArrayIndexExpr _ lhs rhs => reads_within R lhs /\ reads_within R rhs
  | IfExprConseqElse _ c a b
  | IfExprConseqIf _ c a b =>
      reads_within R c /\ reads_within R a /\ reads_within R b
  | ArrayExpr _ (ArrayElemsValues values) =>
      (fix all (es : list Expr) : Prop :=
         match es with
         | [] => True
         | e :: es' => reads_within R e /\ all es'
         end) values
  | ArrayExpr _ (ArrayElemsCopied e _) => reads_within R e
  | LiteralExpr _ _ _ | BlockExpr _ | StructExprStructFields _
  | OtherExpr _ => True
  end.

(** The claim that a type recorded for a node is final: a call of
    [Resolve] on a node for which the type table holds a type already
    leaves that type. *)
Definition recorded_type_is_final : Prop :=
  forall expr fin (s : State) t s',
    Resolve expr fin s = Done t s' ->
    is_Some (resolved s !! hirid (get_node expr)) ->
    resolved s' !! hirid (get_node expr)
    = resolved s !! hirid (get_node expr).

(** The claim that a second call of [Resolve] on a node leaves the
    type recorded for the node by the first. *)
Definition resolving_twice_agrees : Prop :=
  forall expr fin (s : State) t1 s1 t2 s2,
    Resolve expr fin s = Done t1 s1 ->
    Resolve expr fin s1 = Done t2 s2 ->
    resolved s2 !! hirid (get_node expr)
    = resolved s1 !! hirid (get_node expr).

(** *** Further words for the properties of the visits

    An expression is left unresolved with one diagnostic at the
    location [l]: [Resolve] returns [nullptr], the message is added to
    the diagnostics and the type table is as before. *)
Definition unresolved_with (expr : Expr) (is_final_expr : bool) (s : State)
    (l : Location) (msg : string) : Prop :=
  exists s',
    Resolve expr is_final_expr s = Done nullptr s'
    /\ diagnostics s' = diagnostics s ++ [ {| diag_locus := l;
                                              diag_msg := msg |} ]
    /\ resolved s' = resolved s.

(** The names that [visit (HIR::LiteralExpr &)] looks up, and a state in
    which each of them has a type. *)
Definition builtin_names : list string :=
  ["i8"; "i16"; "i32"; "i64"; "i128"; "u8"; "u16"; "u32"; "u64"; "u128";
   "f32"; "f64"; "bool"]%string.

Definition builtins_registered (s : State) : Prop :=
  forall name, name ∈ builtin_names ->
               exists t, builtins s !! name = Some (Some t).

(** The three classes of binary operators, which have one [visit]
    each, with the same body. *)
Definition binary_operators : list (Node -> Expr -> Expr -> Expr) :=
  [ArithmeticOrLogicalExpr; ComparisonExpr; LazyBooleanExpr].

(** A visitor with another [is_final_expr], and the result of a visit
    with the [is_final_expr] of its visitor changed. *)
Definition set_is_final_expr (b : bool) (v : visitor) : visitor :=
  {| infered := infered v; infered_array_elems := infered_array_elems v;
     is_final_expr := b |}.

Definition with_is_final_expr (b : bool) (r : result State visitor)
  : result State visitor :=
  match r with
  | Aborted a => Aborted a
  | Done v s => Done (set_is_final_expr b v) s
  end.

(** The expressions whose visit reads [is_final_expr]: the if/else
    expressions, the blocks, whose visit is outside the sources, and the
    array-index expressions whose array sub-expression, visited by the
    same object, is one of them. *)
Fixpoint reads_is_final_expr (expr : Expr) : bool :=
  match expr with
  | IfExprConseqElse _ _ _ _ | BlockExpr _ => true
  | ArrayIndexExpr _ array_expr _ => reads_is_final_expr array_expr
  | _ => false
  end.

End TypeCheckExpr.

(** A small program to run the checker on. *)
Module Sample.

(** Modelled from the spec: [TyBase::combine], by the rules of the
    section on unification: [Error] absorbs, [Infer] yields the other
    type, numeric types combine with the same variant and width,
    [Bool], [Unit] and an ADT with themselves, arrays by capacity
    and element. *)
Fixpoint combine_types (a b : TyBase) : option TyBase :=
  match a, b with
  | ErrorType _, _ => Some a
  | _, ErrorType _ => Some b
  | InferType _, _ => Some b
  | _, InferType _ => Some a
  | UnitType _, UnitType _ => Some a
  | BoolType _, BoolType _ => Some a
  | IntType _ k1, IntType _ k2 =>
      if decide (k1 = k2) then Some a else None
  | UintType _ k1, UintType _ k2 =>
      if decide (k1 = k2) then Some a else None
  | FloatType _ k1, FloatType _ k2 =>
      if decide (k1 = k2) then Some a else None
  | ADTType r1, ADTType r2 =>
      if decide (r1 = r2) then Some a else None
  | ArrayType r c1 e1, ArrayType _ c2 e2 =>
      if decide (c1 = c2) then
        match combine_types e1 e2 with
        | Some e => Some (ArrayType r c1 e)
        | None => None
        end
      else None
  | _, _ => None
  end.

(** A failed combine reports one diagnostic and returns [nullptr]. *)
Definition sample_combine (a : TyBase) (b : ptr TyBase) : combined :=
  match b with
  | None => CombineAborted Undefined
  | Some b' =>
      match combine_types a b' with
      | Some t => Combined (Some t) []
      | None =>
          Combined nullptr [ {| diag_locus := get_ref b';
                                diag_msg := "expected [%s] got [%s]" |} ]
      end
  end.

Definition i32 : TyBase := IntType 100 I32.
Definition u8 : TyBase := UintType 101 U8.
Definition f32 : TyBase := FloatType 102 F32.
Definition f64 : TyBase := FloatType 103 F64.
Definition bool_ : TyBase := BoolType 104.

Definition at_ (id : N) : Node :=
  {| crate_num := 0; nodeid := 1000 + id; hirid := id; locus := 2000 + id |}.

(** Declarations: [x] (node 501, hir 1) declared without a type,
    [a] (node 502, hir 5) an array of four [f64].  The uses of [x]
    are the nodes 1002 and 1007, the use of [a] is the node 1006;
    the name of node 1040 resolves to a declaration without a hir
    node, the name of node 1041 to one without a recorded type. *)
Definition collaborators : Collaborators :=
  {| lookup_resolved_name := fun id =>
       ({[ 1002 := 501; 1007 := 501; 1006 := 502;
           1040 := 503; 1041 := 504 ]} : gmap N N) !! id;
     lookup_definition := fun id =>
       ({[ 501 := {| parent := 501 |};
           502 := {| parent := 502 |} ]} : gmap N Definition_) !! id;
     lookup_node_to_hir := fun _ id =>
       ({[ 501 := 1; 502 := 5; 504 := 9 ]} : gmap N N) !! id;
     lookup_location := fun id => 2000 + id;
     combine := sample_combine;
     TypeCheckCallExpr_go := fun lookup _ => ret lookup;
     TypeCheckStructExpr_Resolve := fun _ => ret nullptr;
     visit_BlockExpr := fun e v =>
       ret (set_infered
              (Some (if decide (hirid (get_node e) = 31) then bool_
                     else u8)) v) |}.

Definition start : State :=
  {| resolved := {[ 1 := Some (InferType 1);
                    5 := Some (ArrayType 5 4 f64) ]};
     builtins := {[ "i32" := Some i32; "u8" := Some u8;
                    "f32" := Some f32; "f64" := Some f64;
                    "bool" := Some bool_ ]}%string;
     return_type_stack := [Some u8];
     diagnostics := [] |}.

(** [x = 1.0] with the nodes 4 ([x = 1.0]), 2 ([x]) and 3 ([1.0]). *)
Definition x_use : Expr := IdentifierExpr (at_ 2).
Definition one_f32 : Expr := LiteralExpr (at_ 3) FLOAT CORETYPE_F32.
Definition x_assign : Expr := AssignmentExpr (at_ 4) x_use one_f32.

(** [a[2]] with the nodes 8 ([a[2]]), 6 ([a]) and 10 ([2]); [2[2]]. *)
Definition a_use : Expr := IdentifierExpr (at_ 6).
Definition two_i32 : Expr := LiteralExpr (at_ 10) INT CORETYPE_I32.
Definition a_index : Expr := ArrayIndexExpr (at_ 8) a_use two_i32.
Definition two_index : Expr := ArrayIndexExpr (at_ 11) two_i32 two_i32.

(** [if c { .. } else { .. }] with blocks of type [u8]. *)
Definition cond : Expr := LiteralExpr (at_ 20) BOOL CORETYPE_OTHER.
Definition if_else : Expr :=
  IfExprConseqElse (at_ 23) cond (BlockExpr (at_ 21)) (BlockExpr (at_ 22)).

(** [[1, 2, 3]] *)
Definition three_i32 : Expr :=
  ArrayExpr (at_ 33)
    (ArrayElemsValues [LiteralExpr (at_ 30) INT CORETYPE_I32;
                       LiteralExpr (at_ 31) INT CORETYPE_OTHER;
                       LiteralExpr (at_ 32) INT CORETYPE_I32]).

(** [a[true]] *)
Definition true_ : Expr := LiteralExpr (at_ 12) BOOL CORETYPE_OTHER.
Definition a_index_bool : Expr := ArrayIndexExpr (at_ 13) a_use true_.

(** The state in which a call returned. *)
Definition state_of {A} (r : result State A) : State :=
  match r with
  | Done _ s => s
  | Aborted _ => start
  end.

(** Collaborators that know two more declarations: one (node 504, hir 9)
    without a recorded type and one (node 505) without a hir node. *)
Definition more_collaborators : Collaborators :=
  {| lookup_resolved_name := fun id =>
       ({[ 1002 := 501; 1006 := 502; 1040 := 503; 1041 := 504;
           1042 := 505 ]} : gmap N N) !! id;
     lookup_definition := fun id =>
       ({[ 501 := {| parent := 501 |}; 502 := {| parent := 502 |};
           504 := {| parent := 504 |};
           505 := {| parent := 505 |} ]} : gmap N Definition_) !! id;
     lookup_node_to_hir := fun _ id =>
       ({[ 501 := 1; 502 := 5; 504 := 9 ]} : gmap N N) !! id;
     lookup_location := fun id => 2000 + id;
     combine := sample_combine;
     TypeCheckCallExpr_go := fun lookup _ => ret lookup;
     TypeCheckStructExpr_Resolve := fun _ => ret nullptr;
     visit_BlockExpr := fun e v => ret (set_infered (Some u8) v) |}.

(** The state [start] outside every function. *)
Definition outside : State :=
  {| resolved := resolved start; builtins := builtins start;
     return_type_stack := []; diagnostics := [] |}.

(** The state [start] with every builtin type name registered. *)
Definition registered : State :=
  {| resolved := resolved start;
     builtins := {[ "i8" := Some (IntType 110 I8);
                    "i16" := Some (IntType 111 I16);
                    "i32" := Some i32;
                    "i64" := Some (IntType 112 I64);
                    "i128" := Some (IntType 113 I128);
                    "u8" := Some u8;
                    "u16" := Some (UintType 114 U16);
                    "u32" := Some (UintType 115 U32);
                    "u64" := Some (UintType 116 U64);
                    "u128" := Some (UintType 117 U128);
                    "f32" := Some f32; "f64" := Some f64;
                    "bool" := Some bool_ ]}%string;
     return_type_stack := return_type_stack start;
     diagnostics := [] |}.

(** [return 1u8], [2 < 2], [if c { .. }], [[1.0; 8]]. *)
Definition one_u8 : Expr := LiteralExpr (at_ 61) INT CORETYPE_U8.
Definition return_one : Expr := ReturnExpr (at_ 60) (Some one_u8).
Definition two_again : Expr := LiteralExpr (at_ 63) INT CORETYPE_I32.
Definition if_only : Expr := IfExpr (at_ 64) cond (BlockExpr (at_ 21)).
Definition eight_f32 : Expr := ArrayExpr (at_ 65) (ArrayElemsCopied one_f32 8).

(** Calls whose callee names fail to resolve at each of the three
    lookups: no resolved name, no hir node, no recorded type. *)
Definition call_unresolved : Expr :=
  CallExpr (at_ 50) (IdentifierExpr (at_ 39)) [].
Definition call_unmapped : Expr :=
  CallExpr (at_ 51) (IdentifierExpr (at_ 40)) [].
Definition call_untyped : Expr :=
  CallExpr (at_ 52) (IdentifierExpr (at_ 41)) [].

End Sample.
End Resolver.

(** ** Properties of the lowering context *)

Section CompileFacts.
Import TyTy Compile.
Context `{Backend}.

(** A sequence of insertions into a map, read at one key. *)
Lemma lookup_foldl_insert {V} (l : list (N * V)) (m : gmap N V) (id : N) :
  foldl (fun m kv => <[kv.1 := kv.2]> m) m l !! id
  = match latest id l with
    | Some v => Some v
    | None => m !! id
    end.
Proof.
  revert m. induction l as [|[k v] l IH]; intros m; simpl; [done|].
  rewrite IH. destruct (latest id l); [done|].
  rewrite lookup_insert. by destruct (decide (k = id)).
Qed.

(** The same for a cache of the context, given as the field [getf] and
    its update [setf]. *)
Section Cache.
Context {V : Type} (getf : Context -> gmap N V)
        (setf : gmap N V -> Context -> Context).
Hypothesis get_set : forall m c, getf (setf m c) = m.

Lemma run_all_upsert (l : list (HirId * V)) (c : Context) :
  exists c', run_all (fun kv => upsert getf setf kv.1 kv.2) l c = Done tt c'
             /\ getf c' = foldl (fun m kv => <[kv.1 := kv.2]> m) (getf c) l.
Proof.
  revert c. induction l as [|kv l IH]; intros c; simpl.
  - by exists c.
  - unfold bind, upsert at 1, modify.
    destruct (IH (setf (<[kv.1 := kv.2]> (getf c)) c)) as (c' & Hrun & Hget).
    exists c'. split; [done|]. by rewrite Hget, get_set.
Qed.

Lemma cache_after_inserts (l : list (HirId * V)) (c : Context) (id : HirId) :
  exists c', run_all (fun kv => upsert getf setf kv.1 kv.2) l c = Done tt c'
             /\ getf c' !! id = match latest id l with
                                | Some v => Some v
                                | None => getf c !! id
                                end.
Proof.
  destruct (run_all_upsert l c) as (c' & Hrun & Hget).
  exists c'. split; [done|]. rewrite Hget. apply lookup_foldl_insert.
Qed.
End Cache.

Ltac cache_lookup getf setf l c id :=
  let c' := fresh "c'" in
  let Hrun := fresh "Hrun" in
  let Hget := fresh "Hget" in
  destruct (cache_after_inserts getf setf (fun _ _ => eq_refl) l c id)
    as (c' & Hrun & Hget);
  exists c'; split; [exact Hrun|];
  unfold answer; cbv beta delta [lookup_compiled_types lookup_var_decl
    lookup_function_decl lookup_const_decl];
  rewrite Hget; destruct (latest id l); [done|];
  by destruct (getf c !! id).

(** C10.  Each of the four caches of the context (compiled types,
    variables, functions, constants): after any sequence of
    insertions, a lookup of an identity that is not in the cache
    returns false and leaves the caller's output as it was; a lookup of
    an identity that is in the cache returns true with the value
    inserted last for it; in both cases the context after the lookup is
    the context before it. *)
Theorem lookup_reads_latest_insert :
  (forall (c : Context) l id out, exists c',
      run_all (fun kv => insert_compiled_type kv.1 kv.2) l c = Done tt c'
      /\ lookup_compiled_types id out c'
         = Done (answer l (compiled_type_map c !! id) id out) c')
  /\ (forall (c : Context) l id out, exists c',
      run_all (fun kv => insert_var_decl kv.1 kv.2) l c = Done tt c'
      /\ lookup_var_decl id out c'
         = Done (answer l (compiled_var_decls c !! id) id out) c')
  /\ (forall (c : Context) l id out, exists c',
      run_all (fun kv => insert_function_decl kv.1 kv.2) l c = Done tt c'
      /\ lookup_function_decl id out c'
         = Done (answer l (compiled_fn_map c !! id) id out) c')
  /\ (forall (c : Context) l id out, exists c',
      run_all (fun kv => insert_const_decl kv.1 kv.2) l c = Done tt c'
      /\ lookup_const_decl id out c'
         = Done (answer l (compiled_consts c !! id) id out) c').
Proof.
  repeat split; intros c l id out.
  - cache_lookup compiled_type_map set_compiled_type_map l c id.
  - cache_lookup compiled_var_decls set_compiled_var_decls l c id.
  - cache_lookup compiled_fn_map set_compiled_fn_map l c id.
  - cache_lookup compiled_consts set_compiled_consts l c id.
Qed.

(** *** Blocks and statements *)

Lemma run_app ops1 ops2 (c : Context) :
  run (ops1 ++ ops2) c
  = match run ops1 c with
    | Aborted a => Aborted a
    | Done r1 c1 =>
        match run ops2 c1 with
        | Aborted a => Aborted a
        | Done r2 c2 => Done (r1 ++ r2) c2
        end
    end.
Proof.
  revert c. induction ops1 as [|o ops1 IH]; intros c; simpl.
  - unfold ret. by destruct (run ops2 c).
  - unfold bind at 1 3. destruct (run_op o c) as [a|r c1]; [done|].
    unfold bind. rewrite IH.
    destruct (run ops1 c1) as [a|r1 c2]; [done|].
    unfold ret. simpl.
    destruct (run ops2 c2) as [a|r2 c3]; [done|].
    by rewrite app_assoc.
Qed.

Lemma item_nested_ind (P : item -> Prop) :
  (forall stmt, P (Stmt stmt)) ->
  (forall scope body, Forall P body -> P (Block scope body)) ->
  forall it, P it.
Proof.
  intros HS HB. fix IH 1. intros [stmt|scope body]; [apply HS|].
  apply HB. induction body as [|it body IHbody]; constructor.
  - apply IH.
  - exact IHbody.
Qed.

Lemma run_body body :
  Forall (fun it => is_block it -> forall c, closes it c) body ->
  forall (c : Context) rest stmts,
    statements c = rest ++ [stmts] ->
    run (flat_map calls body) c
    = Done (flat_map closed_blocks body).*1
           (set_blocks (scope_stack c)
                       (rest ++ [stmts ++ own_statements body])
                       (attached c ++ flat_map closed_blocks body) c).
Proof.
  induction 1 as [|it body Hit _ IH]; intros c rest stmts Hst; simpl.
  - unfold ret. rewrite !app_nil_r, <- Hst. by destruct c.
  - rewrite run_app. destruct it as [stmt|scope inner].
    + simpl. unfold bind, add_statement, back, ret.
      rewrite Hst, last_snoc. simpl.
      unfold pop_back, push_back. rewrite removelast_last.
      erewrite IH; [|done]. simpl. by rewrite <- app_assoc.
    + rewrite (Hit I c).
      erewrite IH; [|simpl; exact Hst].
      unfold set_blocks. simpl. rewrite !fmap_app. by rewrite <- !app_assoc.
Qed.

Lemma block_closes it : is_block it -> forall c : Context, closes it c.
Proof.
  induction it as [stmt|scope body IH] using item_nested_ind; [done|].
  intros _ c. unfold closes. simpl calls.
  change (Push scope :: flat_map calls body ++ [Pop])
    with ([Push scope] ++ flat_map calls body ++ [Pop]).
  rewrite run_app. cbv [run run_op bind push_block modify ret]. simpl.
  rewrite run_app.
  erewrite (run_body body IH _ (statements c) []); [|done].
  cbv [run run_op bind pop_block back ret].
  unfold set_blocks, block_add_statements, push_back, pop_back. simpl.
  rewrite !last_snoc, !removelast_last, fmap_app. simpl.
  by rewrite <- !app_assoc.
Qed.

Lemma length_pop_back {A} (v : list A) :
  length (pop_back v) = Nat.pred (length v).
Proof.
  unfold pop_back. rewrite removelast_firstn_len, length_take. lia.
Qed.

Lemma run_op_depth o (c : Context) r c' :
  length (scope_stack c) = length (statements c) ->
  run_op o c = Done r c' ->
  length (scope_stack c') = length (statements c').
Proof.
  intros Hlen. destruct o as [scope| |stmt]; simpl.
  - unfold bind, push_block, modify, ret. intros [= _ <-]. simpl.
    unfold push_back. rewrite !length_app. simpl. lia.
  - unfold bind, pop_block, back, ret.
    destruct (last (scope_stack c)) eqn:Hs; [|done].
    destruct (last (statements c)) eqn:Ht; [|done].
    intros [= _ <-]. simpl. rewrite !length_pop_back. lia.
  - unfold bind, add_statement, back, ret.
    destruct (last (statements c)) eqn:Ht; [|done].
    intros [= _ <-]. simpl. unfold push_back.
    rewrite length_app, length_pop_back. simpl.
    destruct (statements c); [done|simpl in *; lia].
Qed.

Lemma run_depth ops1 ops2 (c : Context) r c' :
  length (scope_stack c) = length (statements c) ->
  run (ops1 ++ ops2) c = Done r c' ->
  exists r1 c1, run ops1 c = Done r1 c1
                /\ length (scope_stack c1) = length (statements c1).
Proof.
  revert c r c'. induction ops1 as [|o ops1 IH]; intros c r c' Hlen; simpl.
  - intros _. by exists [], c.
  - unfold bind at 1 3. destruct (run_op o c) as [a|r0 c0] eqn:Ho; [done|].
    unfold bind.
    destruct (run (ops1 ++ ops2) c0) as [a|r1 c1] eqn:Hr; [done|]. intros _.
    destruct (IH _ _ _ (run_op_depth _ _ _ _ Hlen Ho) Hr) as (r2 & c2 & Hr2 & Hl2).
    rewrite Hr2. unfold ret. by exists (r0 ++ r2), c2.
Qed.

Lemma forest_closes forest (c : Context) :
  Forall is_block forest ->
  run (flat_map calls forest) c
  = Done (flat_map closed_blocks forest).*1
         (set_blocks (scope_stack c) (statements c)
                     (attached c ++ flat_map closed_blocks forest) c).
Proof.
  intros Hf. revert c. induction Hf as [|it forest Hit _ IH]; intros c.
  - simpl. unfold ret. rewrite app_nil_r. by destruct c.
  - simpl. rewrite run_app, (block_closes it Hit c), IH.
    unfold set_blocks. simpl. by rewrite fmap_app, <- app_assoc.
Qed.

(** C7 (as amended).  In any sequence of calls of [push_block],
    [pop_block] and [add_statement] that runs from a context whose two
    stacks have equal depth, the two stacks have equal depth after
    every call.  In a sequence of matched pushes and pops, with
    statements added inside blocks only, the calls of [pop_block]
    return the blocks of the matching pushes, each with exactly the
    statements added while it was the innermost open block attached,
    in insertion order, and leave the two stacks as they were. *)
Theorem block_stack_discipline :
  (forall ops1 ops2 (c : Context) r c',
      length (scope_stack c) = length (statements c) ->
      run (ops1 ++ ops2) c = Done r c' ->
      exists r1 c1, run ops1 c = Done r1 c1
                    /\ length (scope_stack c1) = length (statements c1))
  /\ (forall forest (c : Context),
        Forall is_block forest ->
        run (flat_map calls forest) c
        = Done (flat_map closed_blocks forest).*1
               (set_blocks (scope_stack c) (statements c)
                           (attached c ++ flat_map closed_blocks forest) c)).
Proof. split; [exact run_depth | exact forest_closes]. Qed.

(** C8 (as amended).  [pop_block], [pop_fn] and [peek_fn] check
    nothing: in no context do they end in a fatal error, an empty stack
    included.  On a non-empty stack [peek_fn] returns the innermost
    activation, [pop_fn] removes it, and [pop_block] returns the
    innermost block, with its statements attached.
    [peek_enclosing_scope] is the one that checks: with no block open it
    returns [nullptr] and leaves the context as it was. *)
Theorem empty_stacks (c : Context) :
  (scope_stack c = [] -> peek_enclosing_scope c = Done nullptr c)
  /\ (forall a, fatal a ->
                pop_block c <> Aborted a /\ pop_fn c <> Aborted a
                /\ peek_fn c <> Aborted a
                /\ peek_enclosing_scope c <> Aborted a)
  /\ (forall f, back (fn_stack c) = Some f ->
                peek_fn c = Done f c
                /\ pop_fn c = Done tt (set_fn_stack (pop_back (fn_stack c)) c))
  /\ (forall block stmts,
        back (scope_stack c) = Some block ->
        back (statements c) = Some stmts ->
        pop_block c
        = Done block
               (set_blocks (pop_back (scope_stack c))
                           (pop_back (statements c))
                           (block_add_statements block stmts (attached c))
                           c)).
Proof.
  split; [|split; [|split]].
  - intros Hempty. unfold peek_enclosing_scope. by rewrite Hempty.
  - intros a Hfatal.
    unfold pop_block, pop_fn, peek_fn, peek_enclosing_scope.
    repeat split.
    + destruct (back (scope_stack c)); [|congruence].
      destruct (back (statements c)); congruence.
    + destruct (back (fn_stack c)); congruence.
    + destruct (back (fn_stack c)); congruence.
    + case_decide; [done|]. destruct (back (scope_stack c)); congruence.
  - intros f Hback. unfold peek_fn, pop_fn. by rewrite Hback.
  - intros block stmts Hblock Hstmts. unfold pop_block.
    by rewrite Hblock, Hstmts.
Qed.

(** *** [TyTyResolveCompile] *)

Lemma compile_nominal_eq ref (c : Context) :
  compile_nominal ref c
  = match compiled_type_map c !! ref with
    | Some t => Done t c
    | None => Aborted AssertFailed
    end.
Proof.
  unfold compile_nominal, bind, lookup_compiled_types.
  by destruct (compiled_type_map c !! ref).
Qed.

Lemma compile_Done ty (c : Context) t c' :
  compile ty c = Done t c' <-> c' = c /\ materializes c ty t.
Proof.
  revert t c'. induction ty; intros t c'; simpl;
    rewrite ?compile_nominal_eq; unfold stop;
    try (split; [done | by intros [_ Hm]; inversion Hm]).
  1,3,4,5,6: split;
    [ destruct (compiled_type_map c !! ref) eqn:Hl; [|done];
      intros [= <- <-]; split; [done|]; by apply materializes_nominal
    | intros [-> Hm]; inversion Hm as [ty' t' _ Hl|]; subst;
      simpl in Hl; by rewrite Hl ].
  unfold bind, ret. split.
  - destruct (compile ty c) as [a|et c1] eqn:Hc; [done|].
    destruct (proj1 (IHty et c1) eq_refl) as [-> Hm]. intros [= <- <-].
    split; [done|]. by apply materializes_array.
  - intros [-> Hm]. inversion Hm as [ty' t' Hn|r k e et Hel]; subst; [done|].
    by rewrite (proj2 (IHty et c) (conj eq_refl Hel)).
Qed.

(** C9.  [TyTyResolveCompile::compile] by the variant of the type: an
    ADT, bool, signed or unsigned integer or float type is looked up
    in the compiled-type cache under its defining reference, the
    cached value is returned and a miss fails the assertion; an array
    type is built by compiling the element type and pairing it with
    the constant of the capacity, of the 32-bit integer type; every
    other variant reaches [gcc_unreachable].  The compilation returns
    exactly for the types that the specification's materializer
    covers, with its result, and leaves the context as it was. *)
Theorem compile_by_variant (ty : TyBase) (c : Context) :
  compile ty c
  = match ty with
    | ADTType ref | BoolType ref | IntType ref _ | UintType ref _
    | FloatType ref _ =>
        match compiled_type_map c !! ref with
        | Some t => Done t c
        | None => Aborted AssertFailed
        end
    | ArrayType _ capacity element =>
        match compile element c with
        | Done t c' =>
            Done (array_type t (integer_constant_expression
                                  (integer_type true 32) capacity)) c'
        | Aborted a => Aborted a
        end
    | ErrorType _ | UnitType _ | InferType _ | FnType _
    | StructFieldType _ | ParamType _ => Aborted Unreachable
    end
  /\ (forall t c', compile ty c = Done t c' <-> c' = c /\ materializes c ty t).
Proof.
  split; [|intros t c'; apply compile_Done].
  destruct ty; simpl; rewrite ?compile_nominal_eq; done.
Qed.

End CompileFacts.

(** ** Properties of the expression type checker *)

Section ResolverFacts.
Import TyTy HIR Resolver.
Context `{Collaborators}.

Lemma Resolve_with_eq visit_expr id fin (s : State) :
  Resolve_with visit_expr id fin s
  = match visit_expr (TypeCheckExpr fin) s with
    | Aborted a => Aborted a
    | Done v s0 => Done (infered v) (recorded id (infered v) s0)
    end.
Proof.
  unfold Resolve_with, bind.
  destruct (visit_expr (TypeCheckExpr fin) s) as [a|v s0]; [done|].
  by destruct (infered v).
Qed.

Lemma Resolve_eq expr fin (s : State) :
  Resolve expr fin s
  = match visit expr (TypeCheckExpr fin) s with
    | Aborted a => Aborted a
    | Done v s0 =>
        Done (infered v) (recorded (hirid (get_node expr)) (infered v) s0)
    end.
Proof. apply Resolve_with_eq. Qed.

Lemma combine_ptr_Some l r (s : State) :
  combine_ptr (Some l) r s
  = match combine l r with
    | CombineAborted a => Aborted a
    | Combined t errors => Done t (with_errors errors s)
    end.
Proof. unfold combine_ptr. by destruct (combine l r). Qed.

Lemma with_errors_app e1 e2 (s : State) :
  with_errors e2 (with_errors e1 s) = with_errors (e1 ++ e2) s.
Proof. unfold with_errors, set_diagnostics. simpl. by rewrite app_assoc. Qed.

Lemma with_errors_nil (s : State) : with_errors [] s = s.
Proof. unfold with_errors, set_diagnostics. rewrite app_nil_r. by destruct s. Qed.

Lemma recorded_lookup id t (s : State) :
  t <> nullptr -> resolved (recorded id t s) !! id = Some t.
Proof.
  destruct t; [intros _|done]. simpl. apply lookup_insert_eq.
Qed.

(** An if/else expression resolved in final position, when the combine
    of the return type of the enclosing function with the type of the
    then-branch yields a type: the type of the expression is the
    combine of that type with the type of the else-branch.  Resolved in
    non-final position it has the unit type, and the condition and both
    branches are resolved all the same. *)
Theorem if_else_type n if_condition if_block else_block
    (s s1 s2 s3 : State) tc t1 t2 :
  (forall ret_ty u w e1 e2,
      peek_return_type s = Done (Some ret_ty) s ->
      Resolve if_condition true s = Done tc s1 ->
      Resolve if_block false s1 = Done t1 s2 ->
      Resolve else_block false s2 = Done t2 s3 ->
      combine ret_ty t1 = Combined (Some u) e1 ->
      combine u t2 = Combined w e2 ->
      Resolve (IfExprConseqElse n if_condition if_block else_block) true s
      = Done w (recorded (hirid n) w (with_errors (e1 ++ e2) s3)))
  /\ (Resolve if_condition false s = Done tc s1 ->
      Resolve if_block false s1 = Done t1 s2 ->
      Resolve else_block false s2 = Done t2 s3 ->
      Resolve (IfExprConseqElse n if_condition if_block else_block) false s
      = Done (Some (UnitType (hirid n)))
             (with_type (hirid n) (Some (UnitType (hirid n))) s3)).
Proof.
  split.
  - intros ret_ty u w e1 e2 Hret Hc Hi He Hu Hw.
    rewrite Resolve_eq. simpl. unfold bind at 1. rewrite Hret.
    unfold bind at 1. fold (Resolve if_condition true s). rewrite Hc.
    unfold bind at 1. fold (Resolve if_block false s1). rewrite Hi.
    unfold bind at 1. fold (Resolve else_block false s2). rewrite He.
    unfold bind at 1. rewrite combine_ptr_Some, Hu.
    unfold bind at 1. rewrite combine_ptr_Some, Hw.
    unfold ret. simpl. by rewrite with_errors_app.
  - intros Hc Hi He.
    rewrite Resolve_eq. simpl. unfold bind at 1, ret at 1.
    unfold bind at 1. fold (Resolve if_condition false s). rewrite Hc.
    unfold bind at 1. fold (Resolve if_block false s1). rewrite Hi.
    unfold bind at 1. fold (Resolve else_block false s2). by rewrite He.
Qed.

(** C2.  An assignment resolves its left-hand side, then its
    right-hand side, combines the two types, and records the result of
    the combine in the type table under the identity of the left-hand
    side, where the type of the left-hand side was recorded before; the
    result is also the type of the assignment, recorded under its own
    identity when it is not [nullptr]. *)
Theorem assignment_overwrites_lhs n lhs rhs fin (s s1 s2 : State)
    l r t errors :
  Resolve lhs false s = Done (Some l) s1 ->
  Resolve rhs false s1 = Done r s2 ->
  combine l r = Combined t errors ->
  let s' := recorded (hirid n) t
              (with_type (hirid (get_node lhs)) t (with_errors errors s2)) in
  resolved s1 !! hirid (get_node lhs) = Some (Some l)
  /\ Resolve (AssignmentExpr n lhs rhs) fin s = Done t s'
  /\ resolved s' !! hirid (get_node lhs) = Some t
  /\ (t <> nullptr -> resolved s' !! hirid n = Some t).
Proof.
  intros Hl Hr Hc s'. repeat split.
  - rewrite Resolve_eq in Hl.
    destruct (visit lhs (TypeCheckExpr false) s) as [a|v s0]; [done|].
    injection Hl as Hv <-. rewrite Hv. by apply recorded_lookup.
  - rewrite Resolve_eq. simpl.
    unfold bind at 1. fold (Resolve lhs false s). rewrite Hl.
    unfold bind at 1. fold (Resolve rhs false s1). rewrite Hr.
    unfold bind at 1. by rewrite combine_ptr_Some, Hc.
  - subst s'. destruct t as [t|]; simpl.
    + rewrite lookup_insert. case_decide; [done|]. apply lookup_insert_eq.
    + apply lookup_insert_eq.
  - intros Ht. by apply recorded_lookup.
Qed.

Lemma call_failure n fnexpr params fin (s : State) msg :
  visit (CallExpr n fnexpr params) (TypeCheckExpr fin) s
  = Done (TypeCheckExpr fin)
         (with_errors [ {| diag_locus := locus n; diag_msg := msg |} ] s) ->
  fails_with (CallExpr n fnexpr params) fin s msg.
Proof.
  intros Hv. eexists. rewrite Resolve_eq, Hv. simpl. done.
Qed.

(** C4.  [Resolve] records the type it computed under the identity of
    the expression when the type is not [nullptr], and records nothing
    when it is: it returns in the state the visit left.  A call
    expression whose callee has no resolved name, or whose resolved
    name has no node in the syntax tree, or whose declaration has no
    recorded type, reports one diagnostic at the location of the call,
    leaves the type table as it was and returns [nullptr]. *)
Theorem resolve_records_unless_null :
  (forall expr fin (s : State) t s',
      Resolve expr fin s = Done t s' ->
      exists v s0,
        visit expr (TypeCheckExpr fin) s = Done v s0 /\ t = infered v
        /\ (t <> nullptr ->
            s' = with_type (hirid (get_node expr)) t s0
            /\ resolved s' !! hirid (get_node expr) = Some t)
        /\ (t = nullptr -> s' = s0))
  /\ (forall n fnexpr params fin (s : State),
        let call := CallExpr n fnexpr params in
        let name := lookup_resolved_name (nodeid (get_node fnexpr)) in
        (name = None ->
         fails_with call fin s "Failed to lookup reference for node: %s")
        /\ (forall ref_node_id,
              name = Some ref_node_id ->
              lookup_node_to_hir (crate_num n) ref_node_id = None ->
              fails_with call fin s "reverse lookup failure")
        /\ (forall ref_node_id ref,
              name = Some ref_node_id ->
              lookup_node_to_hir (crate_num n) ref_node_id = Some ref ->
              resolved s !! ref = None ->
              fails_with call fin s "consider giving this a type: %s")).
Proof.
  split.
  - intros expr fin s t s' Hr. rewrite Resolve_eq in Hr.
    destruct (visit expr (TypeCheckExpr fin) s) as [a|v s0]; [done|].
    injection Hr as <- <-. exists v, s0. repeat split.
    + by destruct (infered v).
    + by apply recorded_lookup.
    + by intros ->.
  - intros n fnexpr params fin s call name. subst call name. repeat split.
    + intros Hn. apply call_failure. simpl. unfold visit_CallExpr.
      by rewrite Hn.
    + intros ref_node_id Hn Hh. apply call_failure. simpl.
      unfold visit_CallExpr. by rewrite Hn, Hh.
    + intros ref_node_id ref Hn Hh Ht. apply call_failure. simpl.
      unfold visit_CallExpr. rewrite Hn, Hh.
      unfold bind at 1, lookup_type. by rewrite Ht.
Qed.

(** For an array-index expression, the type of the index is combined
    with the type [i32] made for the index; when this combine returns
    [nullptr] the assertion fails.  Otherwise the array sub-expression
    is visited.  When the visit leaves a type that is not an array
    type, a fatal error is reported at its location and the compiler
    stops; when it leaves an array type, the type of the expression is
    the element type of the array. *)
Theorem array_index_type n array_expr index_expr fin (s s1 : State)
    index_ty resolved_ty errors :
  Resolve index_expr false s = Done index_ty s1 ->
  combine (IntType (hirid (get_node index_expr)) I32) index_ty
  = Combined resolved_ty errors ->
  let indexing := ArrayIndexExpr n array_expr index_expr in
  (resolved_ty = nullptr -> Resolve indexing fin s = Aborted AssertFailed)
  /\ (forall v' s2 t,
        resolved_ty <> nullptr ->
        visit array_expr (TypeCheckExpr fin) (with_errors errors s1)
        = Done v' s2 ->
        infered v' = Some t ->
        (get_kind t <> ARRAY ->
         Resolve indexing fin s
         = Aborted (FatalError (locus (get_node array_expr))
                               "expected an ArrayType for index expression"))
        /\ (forall ref capacity element,
              t = ArrayType ref capacity element ->
              Resolve indexing fin s
              = Done (Some element)
                     (with_type (hirid n) (Some element) s2))).
Proof.
  intros Hi Hc indexing. subst indexing.
  assert (Hstart : forall k : visitor -> M State visitor,
             (index_ty0 <- Resolve index_expr false ;;
              r <- combine_ptr
                     (Some (IntType (hirid (get_node index_expr)) I32))
                     index_ty0 ;;
              rust_assert (bool_decide (r <> nullptr)) ;;;
              k (TypeCheckExpr fin)) s
             = if bool_decide (resolved_ty <> nullptr)
               then k (TypeCheckExpr fin) (with_errors errors s1)
               else Aborted AssertFailed).
  { intros k. unfold bind at 1. rewrite Hi.
    unfold bind at 1. rewrite combine_ptr_Some, Hc.
    unfold bind at 1. by destruct resolved_ty. }
  split.
  - intros ->. rewrite Resolve_eq. cbn [visit].
    fold (Resolve index_expr false).
    by rewrite (Hstart (fun v => _ <- visit array_expr v ;; _)).
  - intros v' s2 t Hres Hv Ht.
    split; [intros Hk|intros ref capacity element ->];
      rewrite Resolve_eq; cbn [visit]; fold (Resolve index_expr false);
      rewrite (Hstart (fun v => _ <- visit array_expr v ;; _));
      rewrite (bool_decide_eq_true_2 _ Hres);
      unfold bind at 1; rewrite Hv, Ht.
    + by rewrite (bool_decide_eq_true_2 _ Hk).
    + done.
Qed.

Lemma iterate_resolves values (s : State) ts s1 types :
  resolves_each values s ts s1 ->
  iterate (fun e => Resolve e false) values types s = Done (types ++ ts) s1.
Proof.
  intros Hr. revert types.
  induction Hr as [s|e es s t s1 ts s2 He _ IH]; intros types; simpl.
  - unfold ret. by rewrite app_nil_r.
  - unfold bind. rewrite He, IH. unfold push_back. by rewrite <- app_assoc.
Qed.

Lemma combine_from_fold rest t0 (s : State) t errors :
  fold_combine t0 rest = Some (t, errors) ->
  combine_from (Some t0) rest s = Done (Some t) (with_errors errors s).
Proof.
  revert t0 s errors.
  induction rest as [|t1 rest IH]; intros t0 s errors;
    cbn [fold_combine combine_from].
  - intros [= <- <-]. unfold ret. by rewrite with_errors_nil.
  - destruct (combine t0 t1) as [a|[u|] e1] eqn:Hc; [done| |done].
    destruct (fold_combine u rest) as [[r e2]|] eqn:Hf; [|done].
    intros [= <- <-]. unfold bind at 1. rewrite combine_ptr_Some, Hc.
    rewrite (IH _ _ _ Hf). by rewrite with_errors_app.
Qed.

(** C6.  For an array literal with an explicit list of at least one
    element: every element is resolved, in listing order; the element
    type is the left fold of combine over the types of the elements;
    the type of the literal is the array type of that element type,
    with the number of listed elements as capacity. *)
Theorem array_literal_type n e es fin (s s1 : State) t0 ts t errors :
  resolves_each (e :: es) s (Some t0 :: ts) s1 ->
  fold_combine t0 ts = Some (t, errors) ->
  let array_ty := ArrayType (hirid n) (N.of_nat (length (e :: es))) t in
  Resolve (ArrayExpr n (ArrayElemsValues (e :: es))) fin s
  = Done (Some array_ty)
         (with_type (hirid n) (Some array_ty) (with_errors errors s1)).
Proof.
  intros Hr Hf array_ty. subst array_ty.
  rewrite Resolve_eq. cbn [visit].
  change (fun e0 : Expr =>
            Resolve_with (visit e0) (hirid (get_node e0)) false)
    with (fun e0 : Expr => Resolve e0 false).
  unfold bind at 1. unfold bind at 1.
  rewrite (iterate_resolves _ _ _ _ [] Hr). cbn [app].
  unfold bind at 1. by rewrite (combine_from_fold _ _ _ _ _ Hf).
Qed.

(** *** Resolving twice *)


Lemma extended_extended d1 e1 d2 e2 (s : State) :
  extended d2 e2 (extended d1 e1 s) = extended (d2 ∪ d1) (e1 ++ e2) s.
Proof.
  unfold extended. simpl. f_equal; [apply (assoc_L (∪))|].
  by rewrite app_assoc.
Qed.

Lemma extended_empty (s : State) : extended ∅ [] s = s.
Proof.
  unfold extended. rewrite (left_id_L ∅ (∪)), app_nil_r. by destruct s.
Qed.

Lemma with_type_extended id t (s : State) :
  with_type id t s = extended {[id := t]} [] s.
Proof.
  unfold with_type, extended, set_resolved.
  by rewrite insert_union_singleton_l, app_nil_r.
Qed.

Lemma with_errors_extended errors (s : State) :
  with_errors errors s = extended ∅ errors s.
Proof.
  unfold with_errors, extended, set_diagnostics.
  by rewrite (left_id_L ∅ (∪)).
Qed.

Lemma agree_extended R d errors (s a : State) :
  agree R s a -> agree R (extended d errors s) (extended d errors a).
Proof.
  intros (Hr & Hb & Ht). repeat split; [|done..].
  intros id Hid. simpl. rewrite !lookup_union. by rewrite (Hr id Hid).
Qed.

Section Stable.
Variable R : HirId -> Prop.

Lemma stable_ret {A} (x : A) : stable R (ret x).
Proof.
  intros s y s' [= <- <-]. exists ∅, []. split.
  - by rewrite extended_empty.
  - intros a _. unfold ret. by rewrite extended_empty.
Qed.

Lemma stable_stop {A} (a : abort) : stable R (@stop State A a).
Proof. by intros s x s'. Qed.

Lemma stable_bind {A B} (m : M State A) (k : A -> M State B) :
  stable R m -> (forall x, stable R (k x)) -> stable R (bind m k).
Proof.
  intros Hm Hk s y s'. unfold bind.
  destruct (m s) as [a|x s1] eqn:Hms; [done|]. intros Hks.
  destruct (Hm _ _ _ Hms) as (d1 & e1 & -> & Hm').
  destruct (Hk x _ _ _ Hks) as (d2 & e2 & -> & Hk').
  exists (d2 ∪ d1), (e1 ++ e2). split; [apply extended_extended|].
  intros a Ha. rewrite (Hm' a Ha).
  rewrite (Hk' _ (agree_extended _ _ _ _ _ Ha)).
  by rewrite extended_extended.
Qed.

Lemma stable_rust_assert ok : stable R (@rust_assert State ok).
Proof. destruct ok; [apply stable_ret|apply stable_stop]. Qed.

Lemma stable_insert_type id t : stable R (insert_type id t).
Proof.
  intros s x s' [= <- <-]. exists {[id := t]}, []. split.
  - apply with_type_extended.
  - intros a _. unfold insert_type, modify. by rewrite with_type_extended.
Qed.

Lemma stable_report errors : stable R (report errors).
Proof.
  intros s x s' [= <- <-]. exists ∅, errors. split.
  - apply with_errors_extended.
  - intros a _. unfold report, modify. by rewrite with_errors_extended.
Qed.

Lemma stable_rust_error_at l msg : stable R (rust_error_at l msg).
Proof. apply stable_report. Qed.

Lemma stable_lookup_type ref : R ref -> stable R (lookup_type ref).
Proof.
  intros Href s x s' [= <- <-]. exists ∅, []. split.
  - by rewrite extended_empty.
  - intros a (Hr & _). unfold lookup_type.
    by rewrite extended_empty, (Hr ref Href).
Qed.

Lemma stable_lookup_builtin name : stable R (lookup_builtin name).
Proof.
  intros s x s' [= <- <-]. exists ∅, []. split.
  - by rewrite extended_empty.
  - intros a (_ & Hb & _). unfold lookup_builtin.
    by rewrite extended_empty, Hb.
Qed.

Lemma stable_peek_return_type : stable R peek_return_type.
Proof.
  intros s x s' Hp. exists ∅, []. unfold peek_return_type in *. split.
  - rewrite extended_empty.
    by destruct (back (return_type_stack s)); injection Hp as _ <-.
  - intros a (_ & _ & Ht). rewrite extended_empty, <- Ht.
    by destruct (back (return_type_stack s)); injection Hp as <- _.
Qed.

Lemma stable_combine_ptr lhs rhs : stable R (combine_ptr lhs rhs).
Proof.
  unfold combine_ptr. destruct lhs as [l|]; [|apply stable_stop].
  destruct (combine l rhs); [apply stable_stop|].
  apply stable_bind; [apply stable_report|intros _; apply stable_ret].
Qed.

Lemma stable_Resolve_with visit_expr id fin :
  (forall v, stable R (visit_expr v)) ->
  stable R (Resolve_with visit_expr id fin).
Proof.
  intros Hv. unfold Resolve_with.
  apply stable_bind; [apply Hv|intros v].
  apply stable_bind; [|intros _; apply stable_ret].
  destruct (bool_decide _); [apply stable_insert_type|apply stable_ret].
Qed.

Lemma stable_iterate Resolve_elem values :
  Forall (fun e => stable R (Resolve_elem e)) values ->
  forall types, stable R (iterate Resolve_elem values types).
Proof.
  induction 1 as [|e es He _ IH]; intros types; simpl.
  - apply stable_ret.
  - apply stable_bind; [done|intros t; apply IH].
Qed.

Lemma stable_combine_from rest :
  forall acc, stable R (combine_from acc rest).
Proof.
  induction rest as [|t rest IH]; intros acc; simpl.
  - apply stable_ret.
  - apply stable_bind; [apply stable_combine_ptr|intros c; apply IH].
Qed.

(** Induction over expressions, with the elements of an array
    literal as sub-expressions. *)
Lemma Expr_nested_ind (P : Expr -> Prop) :
  (forall n, P (ReturnExpr n None)) ->
  (forall n e, P e -> P (ReturnExpr n (Some e))) ->
  (forall n fnexpr params, P (CallExpr n fnexpr params)) ->
  (forall n lhs rhs, P lhs -> P rhs -> P (AssignmentExpr n lhs rhs)) ->
  (forall n, P (IdentifierExpr n)) ->
  (forall n lit_type type_hint, P (LiteralExpr n lit_type type_hint)) ->
  (forall n lhs rhs,
      P lhs -> P rhs -> P (ArithmeticOrLogicalExpr n lhs rhs)) ->
  (forall n lhs rhs, P lhs -> P rhs -> P (ComparisonExpr n lhs rhs)) ->
  (forall n lhs rhs, P lhs -> P rhs -> P (LazyBooleanExpr n lhs rhs)) ->
  (forall n c a, P c -> P a -> P (IfExpr n c a)) ->
  (forall n c a b, P c -> P a -> P b -> P (IfExprConseqElse n c a b)) ->
  (forall n c a b, P c -> P a -> P b -> P (IfExprConseqIf n c a b)) ->
  (forall n, P (BlockExpr n)) ->
  (forall n a i, P a -> P i -> P (ArrayIndexExpr n a i)) ->
  (forall n values,
      Forall P values -> P (ArrayExpr n (ArrayElemsValues values))) ->
  (forall n e k, P e -> P (ArrayExpr n (ArrayElemsCopied e k))) ->
  (forall n, P (StructExprStructFields n)) ->
  (forall n, P (OtherExpr n)) ->
  forall expr, P expr.
Proof.
  intros HR0 HR1 HC HA HI HL HAr HCo HLa HIf HIE HII HB HAI HAV HAC HS HO.
  fix IH 1. intros [n [e|]|n f ps|n l r|n|n lt h|n l r|n l r|n l r|n c a
                   |n c a b|n c a b|n|n a i|n [values|e k]|n|n].
  - apply HR1, IH.
  - apply HR0.
  - apply HC.
  - apply HA; apply IH.
  - apply HI.
  - apply HL.
  - apply HAr; apply IH.
  - apply HCo; apply IH.
  - apply HLa; apply IH.
  - apply HIf; apply IH.
  - apply HIE; apply IH.
  - apply HII; apply IH.
  - apply HB.
  - apply HAI; apply IH.
  - apply HAV. induction values as [|e values IHvalues]; constructor.
    + apply IH.
    + exact IHvalues.
  - apply HAC, IH.
  - apply HS.
  - apply HO.
Qed.

Hypothesis collaborators_read_R : collaborators_stable R.

Ltac stable_step :=
  match goal with
  | |- stable _ (bind _ _) => apply stable_bind; [|intros ?]
  | |- stable _ (ret _) => apply stable_ret
  | |- stable _ (stop _) => apply stable_stop
  | |- stable _ (rust_fatal_error _ _) => apply stable_stop
  | |- stable _ (rust_assert _) => apply stable_rust_assert
  | |- stable _ (insert_type _ _) => apply stable_insert_type
  | |- stable _ (rust_error_at _ _) => apply stable_rust_error_at
  | |- stable _ (combine_ptr _ _) => apply stable_combine_ptr
  | |- stable _ (combine_from _ _) => apply stable_combine_from
  | |- stable _ peek_return_type => apply stable_peek_return_type
  | |- stable _ (lookup_builtin _) => apply stable_lookup_builtin
  | |- stable _ (lookup_type _) => apply stable_lookup_type; assumption
  | |- stable _ (Resolve_with _ _ _) =>
      apply stable_Resolve_with; intros ?
  | H : forall v, stable _ (visit ?e v) |- stable _ (visit ?e _) =>
      apply H
  | H : forall e v, stable _ (visit_BlockExpr e v)
    |- stable _ (visit_BlockExpr _ _) => apply H
  | H : forall l e, stable _ (TypeCheckCallExpr_go l e)
    |- stable _ (TypeCheckCallExpr_go _ _) => apply H
  | H : forall e, stable _ (TypeCheckStructExpr_Resolve e)
    |- stable _ (TypeCheckStructExpr_Resolve _) => apply H
  | |- stable _ (if ?b then _ else _) => destruct b
  | |- stable _ (match ?x with _ => _ end) => destruct x eqn:?
  end.

Lemma visit_stable expr :
  reads_within R expr -> forall v, stable R (visit expr v).
Proof.
  destruct collaborators_read_R as (HB & HG & HS).
  induction expr as [| | | | | | | | | | | | | |n values IHvalues| | |]
    using Expr_nested_ind; intros Hreads v;
    cbn [visit reads_within] in *;
    unfold visit_binary, visit_LiteralExpr;
    try (destruct_and?; repeat match goal with
         | IH : reads_within R ?e -> _, Hr : reads_within R ?e |- _ =>
             specialize (IH Hr)
         end; by repeat stable_step).
  - (* CallExpr *)
    unfold visit_CallExpr, call_reference in *.
    destruct (lookup_resolved_name _); [|by repeat stable_step].
    destruct (lookup_node_to_hir _ _); [|by repeat stable_step].
    simpl in Hreads. repeat stable_step.
  - (* IdentifierExpr *)
    unfold visit_IdentifierExpr, identifier_reference in *.
    destruct (lookup_resolved_name _); [|by repeat stable_step].
    destruct (lookup_definition _); [|by repeat stable_step].
    destruct (lookup_node_to_hir _ _); [|by repeat stable_step].
    simpl in Hreads. repeat stable_step.
  - (* ArrayExpr, explicit elements *)
    apply stable_bind; [|intros ?; by repeat stable_step].
    apply stable_bind; [|intros ?; by repeat stable_step].
    apply stable_iterate.
    induction IHvalues as [|e es He _ IH]; constructor.
    + apply stable_Resolve_with, He, Hreads.
    + apply IH, Hreads.
Qed.

Lemma Resolve_stable expr fin :
  reads_within R expr -> stable R (Resolve expr fin).
Proof.
  intros Hreads. apply stable_Resolve_with. by apply visit_stable.
Qed.

(** C3 (as amended).  When an expression is resolved twice in
    succession, the second call returns the type the first returned
    and leaves the type table as the first left it, so that the type
    recorded for the node is the same after both calls.  This holds
    when the types recorded for the declarations that the expression
    refers to (the identities in [R]) are the same after the first
    call as before it, and the block, call and struct checkers outside
    the sources only add recorded types and diagnostics and return,
    record and report the same in every state with the same builtins,
    return types and types recorded for those declarations, whatever
    the diagnostics reported before and the other recorded types. *)
Theorem resolve_twice expr fin (s : State) t s1 :
  reads_within R expr ->
  Resolve expr fin s = Done t s1 ->
  (forall id, R id -> resolved s1 !! id = resolved s !! id) ->
  exists s2,
    Resolve expr fin s1 = Done t s2
    /\ resolved s2 = resolved s1
    /\ resolved s2 !! hirid (get_node expr)
       = resolved s1 !! hirid (get_node expr).
Proof.
  intros Hreads Hfirst Hkept.
  destruct (Resolve_stable expr fin Hreads _ _ _ Hfirst)
    as (d & errors & -> & Hagain).
  exists (extended d errors (extended d errors s)).
  assert (Htable : resolved (extended d errors (extended d errors s))
                   = resolved (extended d errors s)).
  { simpl. by rewrite (assoc_L (∪)), (idemp_L (∪) d). }
  split; [|by rewrite Htable].
  apply Hagain. repeat split; [|done..].
  intros id Hid. symmetry. by apply Hkept.
Qed.

End Stable.

(** *** Calls through [nullptr] and on empty vectors *)

(** X21.  The fold of [visit (HIR::ArrayElemsValues &)] reads
    [types[0]]: an array literal with an empty list of elements has no
    defined behaviour, in every state and position. *)
Lemma array_literal_empty n fin (s : State) :
  Resolve (ArrayExpr n (ArrayElemsValues [])) fin s = Aborted Undefined.
Proof. by rewrite Resolve_eq. Qed.

(** X19.  When the return type does not combine with the type of the
    then-branch and [combine] returns [nullptr], the second combine of
    [visit (HIR::IfExprConseqElse &)] in final position is called
    through [nullptr], after the condition and both blocks were
    resolved. *)
Lemma if_else_first_combine_null n if_condition if_block else_block
    (s s1 s2 s3 : State) tc t1 t2 ret_ty e1 :
  peek_return_type s = Done (Some ret_ty) s ->
  Resolve if_condition true s = Done tc s1 ->
  Resolve if_block false s1 = Done t1 s2 ->
  Resolve else_block false s2 = Done t2 s3 ->
  combine ret_ty t1 = Combined nullptr e1 ->
  Resolve (IfExprConseqElse n if_condition if_block else_block) true s
  = Aborted Undefined.
Proof.
  intros Hret Hc Hi He Hu.
  rewrite Resolve_eq. cbn [visit]. unfold bind at 1. simpl. rewrite Hret.
  unfold bind at 1. fold (Resolve if_condition true s). rewrite Hc.
  unfold bind at 1. fold (Resolve if_block false s1). rewrite Hi.
  unfold bind at 1. fold (Resolve else_block false s2). rewrite He.
  unfold bind at 1. by rewrite combine_ptr_Some, Hu.
Qed.

(** X20.  When the index combines with the 32-bit integer type and
    the visit of the array sub-expression leaves no type,
    [visit (HIR::ArrayIndexExpr &)] calls [get_kind] through
    [nullptr]. *)
Lemma array_index_untyped n array_expr index_expr fin (s s1 : State)
    index_ty resolved_ty errors v' s2 :
  Resolve index_expr false s = Done index_ty s1 ->
  combine (IntType (hirid (get_node index_expr)) I32) index_ty
  = Combined (Some resolved_ty) errors ->
  visit array_expr (TypeCheckExpr fin) (with_errors errors s1) = Done v' s2 ->
  infered v' = nullptr ->
  Resolve (ArrayIndexExpr n array_expr index_expr) fin s = Aborted Undefined.
Proof.
  intros Hi Hc Hv Ht.
  rewrite Resolve_eq. cbn [visit]. fold (Resolve index_expr false).
  unfold bind at 1. rewrite Hi.
  unfold bind at 1. rewrite combine_ptr_Some, Hc.
  unfold bind at 1. simpl. unfold bind at 1. by rewrite Hv, Ht.
Qed.

End ResolverFacts.

(** ** The properties on the sample programs *)

Section Examples.
Import TyTy HIR Compile Resolver Compile.Sample Resolver.Sample.
#[local] Existing Instance backend.
#[local] Existing Instance collaborators.

(** [{ s10; { s20; } s11; }]: the inner block receives [s20], the outer
    one [s10] and [s11]; the stacks have equal depth after
    [push_block] and [add_statement]. *)
Lemma block_stack_discipline_witness :
  run (flat_map calls [block 1 [stmt 10; block 2 [stmt 20]; stmt 11]]) blank
  = Done [Some 2; Some 1]
         (set_blocks [] [] [popped 2 [20]; popped 1 [10; 11]] blank)
  /\ exists r1 c1,
      run [push 1; add 10] blank = Done r1 c1
      /\ length (scope_stack c1) = length (statements c1).
Proof.
  split.
  - apply (proj2 block_stack_discipline
             [block 1 [stmt 10; block 2 [stmt 20]; stmt 11]] blank).
    repeat constructor.
  - apply (proj1 block_stack_discipline [push 1; add 10] [pop] blank
             [Some 1] (set_blocks [] [] [popped 1 [10]] blank));
      reflexivity.
Defined.

(** [{ { s7; } }]: the statement added between the push and the pop of
    the outer block is attached to the inner block, not to the outer
    one. *)
Lemma nested_block_keeps_its_statements : ~ attaches_all_added_since_push.
Proof.
  intros Hall.
  destruct (Hall (Some 1) [block 2 [stmt 7]] blank)
    as (r & c' & Hrun & Hlast).
  vm_compute in Hrun. injection Hrun as _ <-.
  vm_compute in Hlast. discriminate Hlast.
Qed.

(** In the empty context [peek_enclosing_scope] returns [nullptr] and
    [pop_fn] reports no failed assertion; with the function 4 open,
    [peek_fn] returns it and [pop_fn] closes it. *)
Lemma empty_stacks_witness :
  let open := set_fn_stack [ {| fndecl := Some 4; ret_addr := Some 5 |} ]
                           blank in
  peek_enclosing_scope blank = Done nullptr blank
  /\ pop_fn blank <> Aborted AssertFailed
  /\ peek_fn open = Done {| fndecl := Some 4; ret_addr := Some 5 |} open
  /\ pop_fn open = Done tt (set_fn_stack (pop_back (fn_stack open)) open).
Proof.
  intros open.
  destruct (empty_stacks blank) as (Hpeek & Hnever & _).
  destruct (empty_stacks open) as (_ & _ & Hfn & _).
  destruct (Hnever AssertFailed) as (_ & Hpop & _);
    [unfold fatal; discriminate|].
  split; [by apply Hpeek|].
  split; [exact Hpop|].
  exact (Hfn _ eq_refl).
Defined.

(** [pop_fn] in the empty context: [fn_stack.pop_back ()] on the empty
    vector, which no check precedes and which reports no fatal error. *)
Lemma pop_of_empty_stack_is_unchecked : ~ empty_stack_is_fatal.
Proof.
  intros Hfatal.
  destruct (Hfatal blank) as [_ Hfn].
  destruct (Hfn eq_refl) as (a & b & Ha & _ & Hpop & _).
  vm_compute in Hpop. injection Hpop as <-. by apply Ha.
Qed.

(** An array of four [f64] is lowered to the array type of the cached
    [f64] and the constant 4 of the unsigned 32-bit integer type. *)
Lemma compile_by_variant_witness :
  compile (ArrayType 5 4 f64) with_f64
  = Done (Some (Array (Some (Named "f64"))
                      (Some (Some (Integer true 32), 4))))
         with_f64.
Proof.
  apply (proj2 (compile_by_variant (ArrayType 5 4 f64) with_f64)).
  split; [reflexivity|].
  apply (materializes_array with_f64 5 4 f64 (Some (Named "f64"))).
  apply materializes_nominal; reflexivity.
Defined.

(** In a function that returns [u8], an if/else with two blocks of
    type [u8] has the type [u8] in final position and the unit type in
    non-final position. *)
Lemma if_else_type_witness :
  let s1 := state_of (Resolve cond true start) in
  let s2 := state_of (Resolve (BlockExpr (at_ 21)) false s1) in
  let s3 := state_of (Resolve (BlockExpr (at_ 22)) false s2) in
  Resolve if_else true start
  = Done (Some u8) (recorded 23 (Some u8) (with_errors ([] ++ []) s3))
  /\ Resolve if_else false start
     = Done (Some (UnitType 23)) (with_type 23 (Some (UnitType 23)) s3).
Proof.
  intros s1 s2 s3.
  pose proof (if_else_type (at_ 23) cond (BlockExpr (at_ 21))
                (BlockExpr (at_ 22)) start s1 s2 s3
                (Some bool_) (Some u8) (Some u8)) as [Hfinal Hnot].
  split.
  - apply (Hfinal u8 u8 (Some u8) [] []); reflexivity.
  - apply Hnot; reflexivity.
Defined.

(** [x = 1.0] with [x] declared without a type: the type recorded for
    the node [x] is the placeholder after the left-hand side is
    resolved and [f32] after the assignment. *)
Lemma assignment_overwrites_lhs_witness :
  let s1 := state_of (Resolve x_use false start) in
  let s2 := state_of (Resolve one_f32 false s1) in
  let s' := recorded 4 (Some f32) (with_type 2 (Some f32) (with_errors [] s2)) in
  resolved s1 !! 2 = Some (Some (InferType 1))
  /\ Resolve x_assign false start = Done (Some f32) s'
  /\ resolved s' !! 2 = Some (Some f32)
  /\ (Some f32 <> nullptr -> resolved s' !! 4 = Some (Some f32)).
Proof.
  intros s1 s2.
  apply (assignment_overwrites_lhs (at_ 4) x_use one_f32 false start s1 s2
           (InferType 1) (Some f32) (Some f32) []); reflexivity.
Defined.

(** After the assignment [x = 1.0] is resolved, the type recorded for
    the node [x] is [f32]; resolving the node [x] again replaces it by
    the placeholder type of the declaration. *)
Lemma reresolving_replaces_recorded_type :
  ~ (resolving_twice_agrees /\ recorded_type_is_final).
Proof.
  intros [_ Hfinal].
  pose (s1 := state_of (Resolve x_assign false start)).
  pose (s2 := state_of (Resolve x_use false s1)).
  assert (Hr : Resolve x_use false s1 = Done (Some (InferType 1)) s2)
    by reflexivity.
  assert (Hs : is_Some (resolved s1 !! hirid (get_node x_use)))
    by (by eexists).
  specialize (Hfinal _ _ _ _ _ Hr Hs).
  vm_compute in Hfinal. discriminate Hfinal.
Qed.

(** [x = 1.0] resolved twice: [f32] both times, and the same types
    recorded. *)
Lemma resolve_twice_witness :
  let s1 := state_of (Resolve x_assign false start) in
  exists s2,
    Resolve x_assign false s1 = Done (Some f32) s2
    /\ resolved s2 = resolved s1
    /\ resolved s2 !! 4 = resolved s1 !! 4.
Proof.
  intros s1.
  apply (resolve_twice (fun id => id = 1)) with (s := start).
  - repeat split; intros; apply stable_ret.
  - split; [reflexivity|exact I].
  - reflexivity.
  - intros id ->. reflexivity.
Defined.

(** The three calls fail each with the diagnostic of its lookup; the
    type of [x] is recorded for the node [x]. *)
Lemma resolve_records_unless_null_witness :
  (exists v s0,
      visit x_use (TypeCheckExpr false) start = Done v s0
      /\ Some (InferType 1) = infered v
      /\ (Some (InferType 1) <> nullptr ->
          state_of (Resolve x_use false start)
          = with_type 2 (Some (InferType 1)) s0
          /\ resolved (state_of (Resolve x_use false start)) !! 2
             = Some (Some (InferType 1)))
      /\ (Some (InferType 1) = nullptr ->
          state_of (Resolve x_use false start) = s0))
  /\ fails_with call_unresolved false start
                "Failed to lookup reference for node: %s"
  /\ fails_with call_unmapped false start "reverse lookup failure"
  /\ fails_with call_untyped false start "consider giving this a type: %s".
Proof.
  destruct resolve_records_unless_null as [Hrecords Hcalls].
  split; [|split; [|split]].
  - apply (Hrecords x_use false start (Some (InferType 1))
             (state_of (Resolve x_use false start))).
    reflexivity.
  - apply (proj1 (Hcalls (at_ 50) (IdentifierExpr (at_ 39)) [] false start)).
    reflexivity.
  - apply (proj1 (proj2 (Hcalls (at_ 51) (IdentifierExpr (at_ 40)) []
                           false start)) 503); reflexivity.
  - apply (proj2 (proj2 (Hcalls (at_ 52) (IdentifierExpr (at_ 41)) []
                           false start)) 504 9); reflexivity.
Defined.

(** C1.  In a function that returns [u8], an if/else in final position
    whose then-branch has the type [bool] and whose else-branch has the
    type [u8].  The first combine reports the mismatch and returns
    [nullptr]; the second combine is called through that pointer, so the
    expression gets no type and the run has no defined behaviour.  With
    the two blocks exchanged the mismatch is met by the second combine:
    it is reported, the expression stays without a type and the checker
    goes on. *)
Theorem if_else_then_branch_mismatch :
  let s3 := with_type 31 (Some bool_)
              (with_type 22 (Some u8) (with_type 20 (Some bool_) start)) in
  Resolve (IfExprConseqElse (at_ 24) cond (BlockExpr (at_ 31))
                            (BlockExpr (at_ 22))) true start
  = Aborted Undefined
  /\ combine u8 (Some bool_)
     = Combined nullptr [ {| diag_locus := 104;
                             diag_msg := "expected [%s] got [%s]" |} ]
  /\ Resolve (IfExprConseqElse (at_ 24) cond (BlockExpr (at_ 22))
                               (BlockExpr (at_ 31))) true start
     = Done nullptr
            (with_errors [ {| diag_locus := 104;
                              diag_msg := "expected [%s] got [%s]" |} ] s3).
Proof.
  intros s3. split; [|split].
  - rewrite Resolve_eq. by vm_compute.
  - reflexivity.
  - rewrite Resolve_eq. by vm_compute.
Qed.

(** C5.  Indexing a name that has no resolved declaration with the
    index [2].  The visit of the name reports the failed lookup and
    leaves no type; the visit of the array-index expression then calls
    [get_kind] through [nullptr]: no fatal error is reported at the
    location of the name, and the run has no defined behaviour. *)
Theorem array_index_of_unresolved_name :
  let s1 := with_type 10 (Some i32) start in
  let unresolved :=
    [ {| diag_locus := 2039;
         diag_msg := "Failed to lookup reference for node: %s" |} ] in
  visit (IdentifierExpr (at_ 39)) (TypeCheckExpr false) s1
  = Done (TypeCheckExpr false) (with_errors unresolved s1)
  /\ infered (TypeCheckExpr false) = nullptr
  /\ Resolve (ArrayIndexExpr (at_ 14) (IdentifierExpr (at_ 39)) two_i32)
             false start
     = Aborted Undefined.
Proof.
  intros s1 unresolved. split; [|split].
  - by vm_compute.
  - reflexivity.
  - rewrite Resolve_eq. by vm_compute.
Qed.

(** Indexing the array of four [f64] with an index of type [i32]
    yields [f64]; indexing with an index of type [bool] fails the
    assertion; indexing the literal [2] is a fatal error at its
    location. *)
Lemma array_index_type_witness :
  Resolve a_index false start
  = Done (Some f64)
         (with_type 8 (Some f64) (state_of (Resolve two_i32 false start)))
  /\ Resolve a_index_bool false start = Aborted AssertFailed
  /\ Resolve two_index false start
     = Aborted (FatalError 2010 "expected an ArrayType for index expression").
Proof.
  pose (s1 := state_of (Resolve two_i32 false start)).
  pose (s1' := state_of (Resolve true_ false start)).
  destruct (array_index_type (H := collaborators) (at_ 8) a_use two_i32
              false start s1 (Some i32) (Some (IntType 10 I32)) []
              eq_refl eq_refl) as [_ Harray].
  destruct (array_index_type (H := collaborators) (at_ 13) a_use true_
              false start s1' (Some bool_) None
              [ {| diag_locus := 104; diag_msg := "expected [%s] got [%s]" |} ]
              eq_refl eq_refl) as [Hassert _].
  destruct (array_index_type (H := collaborators) (at_ 11) two_i32 two_i32
              false start s1 (Some i32) (Some (IntType 10 I32)) []
              eq_refl eq_refl) as [_ Hfatal].
  split; [|split].
  - destruct (Harray (set_infered (Some (ArrayType 5 4 f64))
                        (TypeCheckExpr false)) s1 (ArrayType 5 4 f64))
      as [_ Helement]; [done..|].
    apply (Helement 5 4 f64 eq_refl).
  - by apply Hassert.
  - destruct (Hfatal (set_infered (Some i32) (TypeCheckExpr false)) s1 i32)
      as [Hnot_array _]; [done..|].
    by apply Hnot_array.
Defined.

(** [[1, 2, 3]] has the type of an array of three [i32]. *)
Lemma array_literal_type_witness :
  let s3 := state_of (iterate (fun e => Resolve e false)
                        [LiteralExpr (at_ 30) INT CORETYPE_I32;
                         LiteralExpr (at_ 31) INT CORETYPE_OTHER;
                         LiteralExpr (at_ 32) INT CORETYPE_I32] [] start) in
  Resolve three_i32 false start
  = Done (Some (ArrayType 33 3 i32))
         (with_type 33 (Some (ArrayType 33 3 i32)) (with_errors [] s3)).
Proof.
  intros s3.
  apply (array_literal_type (H := collaborators) (at_ 33)
           (LiteralExpr (at_ 30) INT CORETYPE_I32)
           [LiteralExpr (at_ 31) INT CORETYPE_OTHER;
            LiteralExpr (at_ 32) INT CORETYPE_I32]
           false start s3 i32 [Some i32; Some i32] i32 []); [|reflexivity].
  repeat (eapply resolves_next; [reflexivity|]).
  apply resolves_none.
Defined.

End Examples.

(** ** Further properties of the lowering context *)

Section ContextCalls.
Import TyTy Compile.
Context `{Backend}.

Lemma exec_app calls1 calls2 (c : Context) :
  exec (calls1 ++ calls2) c
  = match exec calls1 c with
    | Aborted a => Aborted a
    | Done _ c1 => exec calls2 c1
    end.
Proof.
  revert c. induction calls1 as [|k calls1 IH]; intros c; simpl; [done|].
  unfold bind. destruct (exec_call k c) as [a|[] c1]; [done|]. apply IH.
Qed.

Lemma function_completed_from_elem decls (fn : ptr Bfunction) :
  function_completed_from decls fn = bool_decide (fn ∈ decls).
Proof.
  induction decls as [|i decls IH]; cbn [function_completed_from].
  - symmetry. apply bool_decide_eq_false_2. apply not_elem_of_nil.
  - destruct (decide (i = fn)) as [->|Hne].
    + symmetry. apply bool_decide_eq_true_2. by left.
    + rewrite IH. apply bool_decide_ext. rewrite elem_of_cons.
      split; [by right|]. by intros [->|Hin].
Qed.

Lemma exec_call_members k (c c' : Context) :
  exec_call k c = Done tt c' -> members_follow [k] c c'.
Proof.
  unfold members_follow, type_inserts, var_inserts, function_inserts,
    const_inserts, pushed_types, pushed_vars, pushed_consts, pushed_functions.
  destruct k; simpl;
    unfold bind, pop_block, add_statement, pop_fn, back, ret;
    repeat match goal with
           | |- context [last ?l] => destruct (last l)
           end;
    try done; intros [= <-]; simpl; by rewrite ?app_nil_r.
Qed.

Lemma members_follow_app calls1 calls2 (c c1 c2 : Context) :
  members_follow calls1 c c1 -> members_follow calls2 c1 c2 ->
  members_follow (calls1 ++ calls2) c c2.
Proof.
  unfold members_follow, type_inserts, var_inserts, function_inserts,
    const_inserts, pushed_types, pushed_vars, pushed_consts, pushed_functions.
  intros (-> & -> & -> & -> & -> & -> & -> & ->)
         (-> & -> & -> & -> & -> & -> & -> & ->).
  rewrite !flat_map_app, !foldl_app, <- !app_assoc. done.
Qed.

Lemma exec_members calls (c c' : Context) :
  exec calls c = Done tt c' -> members_follow calls c c'.
Proof.
  revert c. induction calls as [|k calls IH]; intros c; simpl.
  - intros [= <-]. unfold members_follow. simpl. by rewrite !app_nil_r.
  - unfold bind. destruct (exec_call k c) as [a|[] c1] eqn:Hk; [done|].
    intros Hrest.
    apply (members_follow_app [k] calls c c1 c');
      [by apply exec_call_members|by apply IH].
Qed.

(** X1.  After any sequence of calls that returns, whatever it inserts,
    pushes and pops in between, a lookup in one of the four caches is
    answered from the insertions into that cache alone: found with the
    value inserted last for the identity, or with the value held before
    the calls, or not found. *)
Theorem caches_are_independent calls (c c' : Context) id :
  exec calls c = Done tt c' ->
  (forall out, lookup_compiled_types id out c'
               = Done (answer (type_inserts calls)
                              (compiled_type_map c !! id) id out) c')
  /\ (forall out, lookup_var_decl id out c'
                  = Done (answer (var_inserts calls)
                                 (compiled_var_decls c !! id) id out) c')
  /\ (forall out, lookup_function_decl id out c'
                  = Done (answer (function_inserts calls)
                                 (compiled_fn_map c !! id) id out) c')
  /\ (forall out, lookup_const_decl id out c'
                  = Done (answer (const_inserts calls)
                                 (compiled_consts c !! id) id out) c').
Proof.
  intros (Ht & Hv & Hf & Hk & _)%exec_members.
  unfold lookup_compiled_types, lookup_var_decl, lookup_function_decl,
    lookup_const_decl, answer.
  rewrite Ht, Hv, Hf, Hk, !lookup_foldl_insert.
  repeat split; intros out.
  - destruct (latest id (type_inserts calls)); [done|].
    by destruct (compiled_type_map c !! id).
  - destruct (latest id (var_inserts calls)); [done|].
    by destruct (compiled_var_decls c !! id).
  - destruct (latest id (function_inserts calls)); [done|].
    by destruct (compiled_fn_map c !! id).
  - destruct (latest id (const_inserts calls)); [done|].
    by destruct (compiled_consts c !! id).
Qed.

(** X2.  After any sequence of calls that returns, [write_to_backend]
    passes the types, constants, functions and variables pushed so far,
    each list in the order of the pushes, and [function_completed]
    answers true exactly for the functions in the list of pushed
    functions. *)
Theorem declarations_in_push_order calls (c c' : Context) :
  exec calls c = Done tt c' ->
  write_to_backend c'
  = Done (type_decls c ++ pushed_types calls,
          const_decls c ++ pushed_consts calls,
          func_decls c ++ pushed_functions calls,
          var_decls c ++ pushed_vars calls) c'
  /\ forall fn,
      function_completed fn c'
      = Done (bool_decide (fn ∈ func_decls c ++ pushed_functions calls)) c'.
Proof.
  intros (_ & _ & _ & _ & Ht & Hv & Hk & Hf)%exec_members.
  unfold write_to_backend, write_global_definitions, function_completed.
  rewrite Ht, Hv, Hk, Hf. split; [done|].
  intros fn. by rewrite function_completed_from_elem.
Qed.

Lemma count_calls_cons P k calls :
  count_calls P (k :: calls)
  = ((if P k then 1 else 0) + count_calls P calls)%nat.
Proof.
  unfold count_calls. rewrite filter_cons.
  destruct (P k); by case_decide.
Qed.

Lemma count_calls_app P calls1 calls2 :
  count_calls P (calls1 ++ calls2)
  = (count_calls P calls1 + count_calls P calls2)%nat.
Proof. unfold count_calls. by rewrite filter_app, length_app. Qed.

Lemma last_Some_length {A} (l : list A) x :
  last l = Some x -> (0 < length l)%nat.
Proof. destruct l; [done|simpl; lia]. Qed.

Lemma exec_call_depths k (c c' : Context) :
  exec_call k c = Done tt c' -> depths_follow [k] c c'.
Proof.
  unfold depths_follow. rewrite !count_calls_cons.
  destruct k; simpl;
    unfold bind, pop_block, add_statement, pop_fn, back, ret, push_back;
    repeat match goal with
           | |- context [last ?l] =>
               let E := fresh "E" in
               destruct (last l) eqn:E; [apply last_Some_length in E|]
           end;
    try done; intros [= <-]; simpl;
    unfold count_calls, push_back;
    rewrite ?length_app, ?length_pop_back; simpl; lia.
Qed.

Lemma depths_follow_app calls1 calls2 (c c1 c2 : Context) :
  depths_follow calls1 c c1 -> depths_follow calls2 c1 c2 ->
  depths_follow (calls1 ++ calls2) c c2.
Proof. unfold depths_follow. rewrite !count_calls_app. lia. Qed.

Lemma exec_depths calls (c c' : Context) :
  exec calls c = Done tt c' -> depths_follow calls c c'.
Proof.
  revert c. induction calls as [|k calls IH]; intros c; simpl.
  - intros [= <-]. unfold depths_follow, count_calls. simpl. lia.
  - unfold bind. destruct (exec_call k c) as [a|[] c1] eqn:Hk; [done|].
    intros Hrest.
    apply (depths_follow_app [k] calls c c1 c');
      [by apply exec_call_depths|by apply IH].
Qed.

(** X3.  Of a sequence of calls in which every call returns (the runs
    in which [back ()] and [pop_back ()] meet no empty vector): after
    each prefix, the scope stack and the statement-list stack have both
    grown by the [push_block] calls and shrunk by the [pop_block] calls
    of the prefix, and the function-activation stack by its [push_fn]
    and [pop_fn] calls; the nine other calls leave the three depths as
    they are.  Nothing is said of a run in which a call meets an empty
    stack. *)
Theorem stack_depths_follow_calls calls1 calls2 (c c' : Context) :
  exec (calls1 ++ calls2) c = Done tt c' ->
  exists c1,
    exec calls1 c = Done tt c1
    /\ exec calls2 c1 = Done tt c'
    /\ depths_follow calls1 c c1
    /\ depths_follow calls2 c1 c'.
Proof.
  rewrite exec_app. destruct (exec calls1 c) as [a|[] c1] eqn:H1; [done|].
  intros H2. exists c1.
  split; [done|]. split; [done|].
  split; by apply exec_depths.
Qed.

(** *** The innermost block and the innermost function *)

Lemma items_close body :
  Forall (fun it => is_block it -> forall c : Context, closes it c) body.
Proof. apply Forall_forall. intros it _. apply block_closes. Qed.

Lemma peek_enclosing_scope_back (c : Context) scope rest :
  scope_stack c = rest ++ [scope] ->
  peek_enclosing_scope c = Done scope c.
Proof.
  intros Hs. unfold peek_enclosing_scope, back. rewrite Hs, last_snoc.
  rewrite length_app. simpl. case_decide; [lia|done].
Qed.

(** X4.  [peek_enclosing_scope] returns the innermost open block and
    changes nothing: after [push_block] and any statements and matched
    blocks inside, it returns the pushed block; after a sequence of
    matched blocks, it returns what it returned before them. *)
Theorem peek_returns_innermost :
  (forall scope body (c : Context), exists r c',
      run (Push scope :: flat_map calls body) c = Done r c'
      /\ peek_enclosing_scope c' = Done scope c')
  /\ (forall forest (c : Context) x,
        Forall is_block forest ->
        peek_enclosing_scope c = Done x c ->
        exists r c',
          run (flat_map calls forest) c = Done r c'
          /\ peek_enclosing_scope c' = Done x c').
Proof.
  split.
  - intros scope body c.
    change (Push scope :: flat_map calls body)
      with ([Push scope] ++ flat_map calls body).
    rewrite run_app. cbv [run run_op bind push_block modify ret]. simpl.
    erewrite (run_body body (items_close body) _ (statements c) []); [|done].
    eexists _, _. split; [done|].
    by apply peek_enclosing_scope_back with (rest := scope_stack c).
  - intros forest c x Hf Hpeek. rewrite (forest_closes forest c Hf).
    eexists _, _. split; [done|].
    unfold peek_enclosing_scope in *. simpl.
    case_decide; [by injection Hpeek as <-|].
    by destruct (back (scope_stack c)); [injection Hpeek as <-|].
Qed.

Lemma exec_call_fn_stack k (c c' : Context) :
  is_PushFn k = false -> is_PopFn k = false ->
  exec_call k c = Done tt c' -> fn_stack c' = fn_stack c.
Proof.
  destruct k; try done; intros _ _; simpl;
    unfold bind, pop_block, add_statement, back, ret;
    repeat match goal with
           | |- context [last ?l] => destruct (last l)
           end;
    try done; by intros [= <-].
Qed.

Lemma fn_matched_keeps_stack calls :
  fn_matched calls ->
  forall c c' : Context, exec calls c = Done tt c' -> fn_stack c' = fn_stack c.
Proof.
  induction 1 as [|k calls Hpush Hpop _ IH|fn ra inner calls _ IHi _ IHc];
    intros c c'.
  - by intros [= <-].
  - simpl. unfold bind.
    destruct (exec_call k c) as [a|[] c1] eqn:Hk; [done|]. intros Hrest.
    rewrite (IH _ _ Hrest). by apply (exec_call_fn_stack k).
  - cbn [exec exec_call]. unfold bind at 1, push_fn, modify.
    rewrite exec_app.
    destruct (exec inner _) as [a|[] c1] eqn:Hin; [done|].
    apply IHi in Hin. simpl in Hin.
    cbn [exec exec_call]. unfold bind, pop_fn, back. rewrite Hin.
    unfold push_back. rewrite last_snoc. intros Hrest.
    rewrite (IHc _ _ Hrest). simpl. unfold pop_back.
    by rewrite removelast_last.
Qed.

(** X5.  [peek_fn] returns the activation of the innermost function:
    after [push_fn] and any calls in which every further [push_fn] has
    its [pop_fn], it returns the pushed function with its return
    address; and calls matched in this way leave the activation stack as
    it was. *)
Theorem peek_fn_returns_innermost fn ret_addr0 inner (c c' : Context) :
  fn_matched inner ->
  exec (PushFn fn ret_addr0 :: inner) c = Done tt c' ->
  peek_fn c' = Done {| fndecl := fn; ret_addr := ret_addr0 |} c'
  /\ exists c'', pop_fn c' = Done tt c'' /\ fn_stack c'' = fn_stack c.
Proof.
  intros Hm. simpl. unfold bind at 1, push_fn, modify. intros Hin.
  apply (fn_matched_keeps_stack _ Hm) in Hin. simpl in Hin.
  unfold peek_fn, pop_fn, back. rewrite Hin. unfold push_back.
  rewrite last_snoc. split; [done|].
  eexists. split; [done|]. simpl. unfold pop_back.
  by rewrite removelast_last.
Qed.

End ContextCalls.

(** ** The constructor and the materializer *)

Section Materializer.
Import TyTy Compile.
Context `{Backend}.

Lemma compile_registered ty (c : Context) t :
  nominal (leaf ty) = true ->
  compiled_type_map c !! get_ref (leaf ty) = Some t ->
  compile ty c = Done (arrays_over ty t) c.
Proof.
  intros Hn Hl. induction ty; simpl in *; try done;
    rewrite ?compile_nominal_eq, ?Hl; try done.
  unfold bind. by rewrite (IHty Hn Hl).
Qed.

Lemma compile_not_nominal ty (c : Context) :
  nominal (leaf ty) = false -> compile ty c = Aborted Unreachable.
Proof.
  intros Hn. induction ty; simpl in *; try done.
  unfold bind. by rewrite (IHty Hn).
Qed.

Lemma compile_frame ty (c : Context) m :
  compiled_type_map c !! get_ref (leaf ty) = m !! get_ref (leaf ty) ->
  compile ty (set_compiled_type_map m c)
  = match compile ty c with
    | Done r _ => Done r (set_compiled_type_map m c)
    | Aborted a => Aborted a
    end.
Proof.
  intros Hl. induction ty; simpl in *; try done;
    rewrite ?compile_nominal_eq; simpl; rewrite <- ?Hl;
    try (by destruct (compiled_type_map c !! ref)).
  unfold bind. rewrite (IHty Hl). by destruct (compile ty c).
Qed.

(** X6.  A type, under any nesting of arrays, is lowered from the cache
    entry of the nominal type at the bottom alone: right after that
    entry is inserted the compilation returns the arrays built over the
    inserted target type; an insertion under another identity does not
    change what the compilation returns; and with any other type at the
    bottom the compilation is unreachable whatever the cache holds. *)
Theorem compile_reads_leaf_entry ty (c : Context) :
  (forall t,
      nominal (leaf ty) = true ->
      (insert_compiled_type (get_ref (leaf ty)) t ;;; compile ty) c
      = Done (arrays_over ty t)
             (set_compiled_type_map
                (<[get_ref (leaf ty) := t]> (compiled_type_map c)) c))
  /\ (forall id t,
        id <> get_ref (leaf ty) ->
        (insert_compiled_type id t ;;; compile ty) c
        = match compile ty c with
          | Done r _ =>
              Done r (set_compiled_type_map
                        (<[id := t]> (compiled_type_map c)) c)
          | Aborted a => Aborted a
          end)
  /\ (nominal (leaf ty) = false -> compile ty c = Aborted Unreachable).
Proof.
  split; [|split].
  - intros t Hn. unfold bind, insert_compiled_type, modify.
    apply compile_registered; [done|]. simpl. apply lookup_insert_eq.
  - intros id t Hne. unfold bind, insert_compiled_type, modify.
    apply compile_frame. by rewrite lookup_insert_ne.
  - apply compile_not_nominal.
Qed.

Section Constructor.
Variable lookup_type_by_node_id : NodeId -> option HirId.
Variable lookup_type : HirId -> option (ptr TyBase).
Variable TyTyCompile_compile : ptr TyBase -> abort + ptr Btype.

#[local] Abbreviation insert_builtins :=
  (insert_builtins lookup_type_by_node_id lookup_type TyTyCompile_compile).
#[local] Abbreviation registrable :=
  (registrable lookup_type_by_node_id lookup_type TyTyCompile_compile).

Lemma insert_builtins_Done builtins (c : Context) :
  Forall registrable builtins ->
  exists c', insert_builtins builtins c = Done tt c'.
Proof.
  intros Hall. revert c.
  induction Hall as [|it builtins (ref & l & t & Hr & Hl & Ht) _ IH];
    intros c; simpl.
  - by exists c.
  - rewrite Hr, Hl, Ht. unfold bind. simpl. apply IH.
Qed.

Lemma insert_builtins_inv builtins (c c' : Context) :
  insert_builtins builtins c = Done tt c' ->
  Forall registrable builtins
  /\ (forall ref,
        compiled_type_map c' !! ref
        = if decide (Exists (fun it => lookup_type_by_node_id it = Some ref)
                            builtins)
          then match lookup_type ref with
               | Some l => match TyTyCompile_compile l with
                           | inr t => Some t
                           | inl _ => None
                           end
               | None => None
               end
          else compiled_type_map c !! ref)
  /\ (forall m, set_compiled_type_map m c' = set_compiled_type_map m c).
Proof.
  revert c. induction builtins as [|it builtins IH]; intros c;
    cbn [Compile.insert_builtins].
  - intros [= <-]. split; [constructor|]. split; [|done].
    intros ref. rewrite decide_False; [done|].
    intros He. by apply Exists_nil in He.
  - destruct (lookup_type_by_node_id it) as [ref0|] eqn:Hr; [|done].
    destruct (lookup_type ref0) as [l|] eqn:Hl; [|done].
    destruct (TyTyCompile_compile l) as [a|t] eqn:Ht; [done|].
    unfold bind. simpl. intros Hrest.
    destruct (IH _ Hrest) as (Hall & Hmap & Hsame). simpl in *.
    split; [constructor; [by exists ref0, l, t|done]|].
    split; [|exact Hsame].
    intros ref. rewrite Hmap.
    destruct (decide (Exists _ builtins)) as [He|He].
    + rewrite decide_True; [done|by right].
    + destruct (decide (ref0 = ref)) as [<-|Hne].
      * rewrite decide_True; [|by left].
        rewrite lookup_insert_eq. by rewrite Hl, Ht.
      * rewrite lookup_insert_ne; [|done].
        rewrite decide_False; [done|].
        intros [Hhd|Htl]%Exists_cons; [congruence|done].
Qed.

(** X7.  The constructor returns exactly when every builtin type of the
    name resolver has a type identity, a type and a compiled type.  The
    context it returns answers the lookup of the type identity of every
    builtin with the compiled type of its type, answers not found for
    every other identity, and has empty stacks, lists and other
    caches. *)
Theorem constructor_registers_builtins builtins :
  (Forall registrable builtins
   <-> exists c, Context_new lookup_type_by_node_id lookup_type
                             TyTyCompile_compile builtins = Done tt c)
  /\ forall c,
      Context_new lookup_type_by_node_id lookup_type TyTyCompile_compile
                  builtins = Done tt c ->
      (forall it ref out,
          it ∈ builtins ->
          lookup_type_by_node_id it = Some ref ->
          exists l t,
            lookup_type ref = Some l /\ TyTyCompile_compile l = inr t
            /\ lookup_compiled_types ref out c = Done (true, t) c)
      /\ (forall ref out,
            (forall it, it ∈ builtins -> lookup_type_by_node_id it <> Some ref) ->
            lookup_compiled_types ref out c = Done (false, out) c)
      /\ set_compiled_type_map ∅ c = blank.
Proof.
  unfold Context_new. split; [split|].
  - apply insert_builtins_Done.
  - intros [c Hc]. by apply insert_builtins_inv in Hc as [? _].
  - intros c Hc.
    destruct (insert_builtins_inv _ _ _ Hc) as (Hall & Hmap & Hsame).
    split; [|split; [|exact (Hsame ∅)]].
    + intros it ref out Hin Hr.
      rewrite Forall_forall in Hall.
      destruct (Hall it Hin) as (ref' & l & t & Hr' & Hl & Ht).
      assert (ref' = ref) as -> by congruence.
      exists l, t. split; [done|]. split; [done|].
      unfold lookup_compiled_types. rewrite Hmap, decide_True, Hl, Ht; [done|].
      apply Exists_exists. by exists it.
    + intros ref out Hnone. unfold lookup_compiled_types.
      rewrite Hmap, decide_False; [done|].
      intros (it & Hin & Hr)%Exists_exists. by apply (Hnone it).
Qed.

End Constructor.
End Materializer.

(** ** Further properties of the expression type checker *)

Section Visits.
Import TyTy HIR Resolver.
Context `{Collaborators}.

Lemma unresolved_after expr fin (s : State) l msg :
  visit expr (TypeCheckExpr fin) s
  = Done (TypeCheckExpr fin)
         (with_errors [ {| diag_locus := l; diag_msg := msg |} ] s) ->
  unresolved_with expr fin s l msg.
Proof. intros Hv. eexists. by rewrite Resolve_eq, Hv. Qed.

(** X8.  A return expression outside every function activation fails
    the assertion, before its operand is looked at; inside one, its type
    is the return type of the function combined with the type of the
    operand. *)
Theorem return_expr_type n return_expr fin (s : State) :
  (peek_return_type s = Done nullptr s ->
   Resolve (ReturnExpr n return_expr) fin s = Aborted AssertFailed)
  /\ (forall ret_ty e t s1 w errors,
        peek_return_type s = Done (Some ret_ty) s ->
        return_expr = Some e ->
        Resolve e false s = Done t s1 ->
        combine ret_ty t = Combined w errors ->
        Resolve (ReturnExpr n return_expr) fin s
        = Done w (recorded (hirid n) w (with_errors errors s1))).
Proof.
  split.
  - intros Hp. rewrite Resolve_eq. cbn [visit]. unfold bind at 1.
    by rewrite Hp.
  - intros ret_ty e t s1 w errors Hp -> He Hc.
    rewrite Resolve_eq. cbn [visit]. unfold bind at 1. rewrite Hp.
    unfold bind at 1. simpl. unfold bind at 1.
    fold (Resolve e false s). rewrite He.
    unfold bind at 1. by rewrite Hc.
Qed.

(** X9.  An identifier whose name has no resolved declaration, whose
    declaration is unknown to the resolver, or whose declaration has no
    node in the syntax tree is left unresolved with one diagnostic at
    the location of the identifier; one whose declaration has no
    recorded type is left unresolved with one diagnostic at the location
    of the declaration; otherwise its type is the type recorded for the
    declaration. *)
Theorem identifier_type n fin (s : State) :
  let ident := IdentifierExpr n in
  let name := lookup_resolved_name (nodeid n) in
  (name = None ->
   unresolved_with ident fin s (locus n)
                   "Failed to lookup reference for node: %s")
  /\ (forall ref_node_id,
        name = Some ref_node_id ->
        lookup_definition ref_node_id = None ->
        unresolved_with ident fin s (locus n) "unknown reference")
  /\ (forall ref_node_id def,
        name = Some ref_node_id ->
        lookup_definition ref_node_id = Some def ->
        lookup_node_to_hir (crate_num n) (parent def) = None ->
        unresolved_with ident fin s (locus n) "reverse lookup failure")
  /\ (forall ref,
        identifier_reference n = Some ref ->
        resolved s !! ref = None ->
        unresolved_with ident fin s (lookup_location ref)
                        "consider giving this a type: %s")
  /\ (forall ref t,
        identifier_reference n = Some ref ->
        resolved s !! ref = Some t ->
        Resolve ident fin s = Done t (recorded (hirid n) t s)).
Proof.
  intros ident name. subst ident name. unfold identifier_reference.
  split; [|split; [|split; [|split]]].
  - intros Hn. apply unresolved_after.
    simpl. unfold visit_IdentifierExpr. by rewrite Hn.
  - intros r Hn Hd. apply unresolved_after.
    simpl. unfold visit_IdentifierExpr. by rewrite Hn, Hd.
  - intros r d Hn Hd Hh. apply unresolved_after.
    simpl. unfold visit_IdentifierExpr. by rewrite Hn, Hd, Hh.
  - intros ref Href Ht. apply unresolved_after.
    simpl. unfold visit_IdentifierExpr.
    destruct (lookup_resolved_name (nodeid n)) as [r|]; [|done].
    destruct (lookup_definition r) as [d|]; [|done].
    rewrite Href. unfold bind, lookup_type. by rewrite Ht.
  - intros ref t Href Ht. rewrite Resolve_eq. simpl.
    unfold visit_IdentifierExpr.
    destruct (lookup_resolved_name (nodeid n)) as [r|]; [|done].
    destruct (lookup_definition r) as [d|]; [|done].
    rewrite Href. unfold bind, lookup_type. by rewrite Ht.
Qed.

Lemma literal_builtin_name lit_type type_hint name :
  literal_builtin lit_type type_hint = Some name -> name ∈ builtin_names.
Proof.
  destruct lit_type, type_hint; intros [= <-]; unfold builtin_names;
    set_solver.
Qed.

(** X10.  In a state in which the thirteen builtin type names have
    types, every integer, float and boolean literal resolves: [Resolve]
    returns the type of the builtin that the lit type and the hint
    select ([i32] for an integer and [f32] for a float without a usable
    hint), records it for the literal and changes nothing else. *)
Theorem literal_resolves n lit_type type_hint fin (s : State) :
  builtins_registered s ->
  lit_type <> OTHER_LIT ->
  exists name t,
    literal_builtin lit_type type_hint = Some name
    /\ builtins s !! name = Some (Some t)
    /\ Resolve (LiteralExpr n lit_type type_hint) fin s
       = Done (Some t) (with_type (hirid n) (Some t) s).
Proof.
  intros Hreg Hlit.
  destruct (literal_builtin lit_type type_hint) as [name|] eqn:Hname;
    [|by destruct lit_type].
  destruct (Hreg name (literal_builtin_name _ _ _ Hname)) as [t Ht].
  exists name, t. split; [done|]. split; [done|].
  rewrite Resolve_eq. cbn [visit]. unfold visit_LiteralExpr.
  rewrite Hname. unfold bind at 1, lookup_builtin. by rewrite Ht.
Qed.


(** X12.  An arithmetic, comparison or lazy boolean expression resolves
    its left operand, then its right operand.  When the left operand has
    no type the combine is called through [nullptr]; otherwise the type
    of the expression is the result of combining the two types, for a
    comparison and a lazy boolean expression as for an arithmetic
    one. *)
Theorem binary_operator_type op n lhs rhs fin (s s1 s2 : State) l r :
  op ∈ binary_operators ->
  Resolve lhs false s = Done l s1 ->
  Resolve rhs false s1 = Done r s2 ->
  (l = nullptr -> Resolve (op n lhs rhs) fin s = Aborted Undefined)
  /\ (forall lt w errors,
        l = Some lt ->
        combine lt r = Combined w errors ->
        Resolve (op n lhs rhs) fin s
        = Done w (recorded (hirid n) w (with_errors errors s2))).
Proof.
  intros Hop Hl Hr.
  assert (Hvisit : visit (op n lhs rhs) (TypeCheckExpr fin) s
                   = visit_binary (Resolve lhs false) (Resolve rhs false)
                                  (TypeCheckExpr fin) s
                   /\ hirid (get_node (op n lhs rhs)) = hirid n).
  { unfold binary_operators in Hop.
    repeat (apply elem_of_cons in Hop as [->|Hop]; [done|]).
    by apply elem_of_nil in Hop. }
  destruct Hvisit as [Hvisit Hid].
  rewrite Resolve_eq, Hvisit, Hid. unfold visit_binary, bind.
  rewrite Hl, Hr. split.
  - by intros ->.
  - intros lhs_ty w errors -> Hc. by rewrite combine_ptr_Some, Hc.
Qed.

(** X13.  An [if] without [else] and an [if] followed by [else if] have
    the unit type carrying their own identity, whatever the types of the
    condition and of the blocks, once these are resolved. *)
Theorem if_without_else_is_unit n fin (s s1 s2 : State) c a tc ta :
  Resolve c false s = Done tc s1 ->
  Resolve a false s1 = Done ta s2 ->
  Resolve (IfExpr n c a) fin s
  = Done (Some (UnitType (hirid n)))
         (with_type (hirid n) (Some (UnitType (hirid n))) s2)
  /\ forall b tb s3,
      Resolve b false s2 = Done tb s3 ->
      Resolve (IfExprConseqIf n c a b) fin s
      = Done (Some (UnitType (hirid n)))
             (with_type (hirid n) (Some (UnitType (hirid n))) s3).
Proof.
  intros Hc Ha. split.
  - rewrite Resolve_eq. cbn [visit]. unfold bind at 1.
    fold (Resolve c false s). rewrite Hc. unfold bind at 1.
    fold (Resolve a false s1). by rewrite Ha.
  - intros b tb s3 Hb. rewrite Resolve_eq. cbn [visit]. unfold bind at 1.
    fold (Resolve c false s). rewrite Hc. unfold bind at 1.
    fold (Resolve a false s1). rewrite Ha. unfold bind at 1.
    fold (Resolve b false s2). by rewrite Hb.
Qed.

(** X14.  An array literal, with listed elements or with a copied
    element, never stays unresolved: where [Resolve] returns, it returns
    an array type that carries the identity of the literal and its
    number of elements; a listed or copied element without a type stops
    the compiler.  For a copied element with a type, the element type
    of the array is that type. *)
Theorem array_literal_is_resolved n elements fin (s : State) :
  (forall r s',
      Resolve (ArrayExpr n elements) fin s = Done r s' ->
      exists element,
        r = Some (ArrayType (hirid n) (get_num_elements elements) element))
  /\ (forall e k t s1,
        elements = ArrayElemsCopied e k ->
        Resolve e false s = Done t s1 ->
        Resolve (ArrayExpr n elements) fin s
        = match t with
          | Some element =>
              Done (Some (ArrayType (hirid n) k element))
                   (with_type (hirid n)
                              (Some (ArrayType (hirid n) k element)) s1)
          | None => Aborted AssertFailed
          end).
Proof.
  split.
  - intros r s'. rewrite Resolve_eq. cbn [visit get_node].
    unfold bind at 1.
    destruct (_ s) as [a|v' s1]; [done|].
    destruct (infered_array_elems v') as [element|]; [|done].
    simpl. intros [= <- _]. by exists element.
  - intros e k t s1 -> He. rewrite Resolve_eq. cbn [visit get_node].
    unfold bind at 1. unfold bind at 1. fold (Resolve e false s).
    rewrite He. by destruct t.
Qed.

Lemma reads_within_all expr : reads_within (fun _ => True) expr.
Proof.
  induction expr as [| | | | | | | | | | | | | |n values IHvalues| | |]
    using Expr_nested_ind; cbn [reads_within]; try done.
  - unfold within. by destruct (call_reference _ _).
  - unfold within. by destruct (identifier_reference _).
  - induction IHvalues; [done|by split].
Qed.

(** X15.  What the block, call and struct checkers outside the sources
    do, [Resolve] does on every expression.  When each of them only
    adds recorded types and diagnostics and returns, records and
    reports the same whatever diagnostics were reported before, then
    [Resolve] leaves the builtins and the return types as they are,
    keeps the diagnostics reported before and every identity of the
    type table, and returns the same type, recording the same types,
    whatever diagnostics were reported before. *)
Theorem resolve_only_adds expr fin (s : State) t s' :
  collaborators_stable (fun _ => True) ->
  Resolve expr fin s = Done t s' ->
  builtins s' = builtins s
  /\ return_type_stack s' = return_type_stack s
  /\ (exists errors, diagnostics s' = diagnostics s ++ errors)
  /\ (forall id, is_Some (resolved s !! id) -> is_Some (resolved s' !! id))
  /\ (forall before, exists s'',
        Resolve expr fin (set_diagnostics before s) = Done t s''
        /\ resolved s'' = resolved s').
Proof.
  intros Hcoll Hr.
  destruct (Resolve_stable _ Hcoll expr fin (reads_within_all expr) _ _ _ Hr)
    as (d & errors & -> & Hagain).
  split; [done|]. split; [done|]. split; [by exists errors|]. split.
  - intros id Hid. simpl. apply lookup_union_is_Some. by right.
  - intros before. eexists. split; [by apply Hagain|done].
Qed.

Lemma visit_IdentifierExpr_resolved n v (s : State) v' s' :
  visit_IdentifierExpr n v s = Done v' s' -> resolved s' = resolved s.
Proof.
  unfold visit_IdentifierExpr.
  destruct (lookup_resolved_name _); [|by intros [= _ <-]].
  destruct (lookup_definition _); [|by intros [= _ <-]].
  destruct (lookup_node_to_hir _ _); [|by intros [= _ <-]].
  unfold bind, lookup_type.
  destruct (resolved s !! _); by intros [= _ <-].
Qed.

(** X16.  The array sub-expression of an array-index expression is
    visited by the object that visits the index expression, not
    resolved: for an identifier, no type is recorded under the identity
    of the identifier.  The type table after [Resolve] is the table that
    the resolution of the index left, with the type of the index
    expression recorded. *)
Theorem array_index_leaves_array_unrecorded n m index_expr fin (s : State)
    index_ty s1 t s' :
  Resolve index_expr false s = Done index_ty s1 ->
  Resolve (ArrayIndexExpr n (IdentifierExpr m) index_expr) fin s = Done t s' ->
  resolved s' = <[hirid n := t]> (resolved s1)
  /\ (hirid m <> hirid n ->
      resolved s' !! hirid m = resolved s1 !! hirid m).
Proof.
  intros Hi. rewrite Resolve_eq. cbn [visit get_node].
  fold (Resolve index_expr false). unfold bind at 1. rewrite Hi.
  unfold bind at 1, combine_ptr.
  destruct (combine _ index_ty) as [a|r errors]; [done|].
  unfold bind at 1, report, modify, ret.
  unfold bind at 1. destruct r; [|done]. simpl.
  unfold bind at 1.
  destruct (visit_IdentifierExpr m _ _) as [a|v' s2] eqn:Hv; [done|].
  apply visit_IdentifierExpr_resolved in Hv. simpl in Hv.
  destruct (infered v') as [ty|]; [|done].
  case_bool_decide as Hk; [done|].
  destruct ty; try (simpl in Hk; discriminate Hk).
  simpl. intros [= <- <-]. simpl.
  rewrite Hv. split; [done|]. intros Hne. by rewrite lookup_insert_ne.
Qed.

Lemma bind_with_is_final_expr {A} (m : M State A)
    (k1 k2 : A -> M State visitor) b (s : State) :
  (forall x s', k1 x s' = with_is_final_expr b (k2 x s')) ->
  bind m k1 s = with_is_final_expr b (bind m k2 s).
Proof. intros Hk. unfold bind. destruct (m s); [done|apply Hk]. Qed.

Lemma bind_visitor_with_is_final_expr (m1 m2 : M State visitor)
    (k : visitor -> M State visitor) b (s : State) :
  m1 s = with_is_final_expr b (m2 s) ->
  (forall v s', k (set_is_final_expr b v) s' = with_is_final_expr b (k v s')) ->
  bind m1 k s = with_is_final_expr b (bind m2 k s).
Proof.
  intros Hm Hk. unfold bind. rewrite Hm.
  destruct (m2 s); simpl; [done|apply Hk].
Qed.

Ltac flag_step :=
  first
    [ reflexivity
    | apply bind_with_is_final_expr; intros ? ?
    | match goal with
      | |- (match ?x with _ => _ end) _ = _ => destruct x
      | |- (if ?x then _ else _) _ = _ => destruct x
      end ].

Lemma visit_is_final_expr expr b v (s : State) :
  reads_is_final_expr expr = false ->
  visit expr (set_is_final_expr b v) s
  = with_is_final_expr b (visit expr v s).
Proof.
  revert v s.
  induction expr as [| | | | | | | | | | | | |n a i IHa _|n values _| | |]
    using Expr_nested_ind; intros v s Hflag; try done;
    cbn [visit reads_is_final_expr] in *;
    unfold visit_CallExpr, visit_IdentifierExpr, visit_LiteralExpr,
      visit_binary, rust_fatal_error, stop;
    try (repeat flag_step; fail).
  - (* ArrayIndexExpr *)
    do 3 (apply bind_with_is_final_expr; intros ? ?).
    apply bind_visitor_with_is_final_expr; [by apply IHa|].
    intros w sw. simpl. repeat flag_step.
  - (* ArrayExpr, listed elements *)
    apply bind_visitor_with_is_final_expr; [repeat flag_step|].
    intros w sw. simpl. repeat flag_step.
  - (* ArrayExpr, copied element *)
    apply bind_visitor_with_is_final_expr; [repeat flag_step|].
    intros w sw. simpl. repeat flag_step.
Qed.

(** X17.  The final-position flag is read by the visits of if/else
    expressions and of blocks only, and by the visit of an array-index
    expression for its array sub-expression: [Resolve] does the same in
    final and in non-final position on every other expression. *)
Theorem final_position_matters_for_if_else expr (s : State) :
  reads_is_final_expr expr = false ->
  Resolve expr true s = Resolve expr false s.
Proof.
  intros Hflag. rewrite !Resolve_eq.
  change (TypeCheckExpr true)
    with (set_is_final_expr true (TypeCheckExpr false)).
  rewrite (visit_is_final_expr _ _ _ _ Hflag).
  by destruct (visit expr (TypeCheckExpr false) s).
Qed.

(** X18.  A call whose callee name resolves to a node of the syntax
    tree with a recorded type has the type that [TypeCheckCallExpr::go]
    computes from that recorded type; the declaration is found from the
    resolved name directly, without the lookup of its definition that an
    identifier makes, and neither the callee nor the arguments are
    resolved by the visit. *)
Theorem call_type n fnexpr params fin (s : State) ref lookup :
  call_reference n fnexpr = Some ref ->
  resolved s !! ref = Some lookup ->
  Resolve (CallExpr n fnexpr params) fin s
  = match TypeCheckCallExpr_go lookup (CallExpr n fnexpr params) s with
    | Done t s1 => Done t (recorded (hirid n) t s1)
    | Aborted a => Aborted a
    end.
Proof.
  intros Href Hty. rewrite Resolve_eq. cbn [visit get_node].
  unfold visit_CallExpr, call_reference in *.
  destruct (lookup_resolved_name (nodeid (get_node fnexpr)))
    as [ref_node_id|]; [|done].
  rewrite Href. unfold bind at 1. unfold Resolver.lookup_type.
  rewrite Hty. unfold bind.
  by destruct (TypeCheckCallExpr_go lookup (CallExpr n fnexpr params) s).
Qed.

End Visits.

(** ** The further properties on the sample programs *)

Section MoreExamples.
Import TyTy HIR Compile Resolver Compile.Sample Resolver.Sample.
#[local] Existing Instance backend.
#[local] Existing Instance collaborators.

Ltac evaluated H :=
  let H' := fresh in pose proof H as H'; vm_compute in H'; vm_compute; exact H'.

Lemma lowering_runs :
  exec lowering blank = Done tt (context_of (exec lowering blank)).
Proof. vm_compute. reflexivity. Qed.

(** After the calls of [lowering], the type inserted last under the
    identity 1 is found, the variable inserted under 1 is found, and no
    function is found under 1. *)
Lemma caches_are_independent_witness :
  let c' := context_of (exec lowering blank) in
  lookup_compiled_types 1 None c' = Done (true, Some (Named "b")) c'
  /\ lookup_var_decl 1 None c' = Done (true, Some 7) c'
  /\ lookup_function_decl 1 (Some 9) c' = Done (false, Some 9) c'.
Proof.
  intros c'.
  destruct (caches_are_independent (H := backend) lowering blank c' 1
              lowering_runs) as (Ht & Hv & Hf & _).
  split; [evaluated (Ht None)|].
  split; [evaluated (Hv None)|evaluated (Hf (Some 9))].
Defined.

Lemma declarations_in_push_order_witness :
  let c' := context_of (exec lowering blank) in
  write_to_backend c' = Done ([Some (Named "a")], [], [Some 4], []) c'
  /\ function_completed (Some 4) c' = Done true c'
  /\ function_completed (Some 5) c' = Done false c'.
Proof.
  intros c'.
  destruct (declarations_in_push_order (H := backend) lowering blank c'
              lowering_runs) as [Hw Hf].
  split; [evaluated Hw|].
  split; [evaluated (Hf (Some 4))|evaluated (Hf (Some 5))].
Defined.

(** After the first four calls of [lowering], one block and one function
    activation are open; the five calls that follow close the block. *)
Lemma stack_depths_follow_calls_witness :
  exists c1,
    exec (take 4 lowering) blank = Done tt c1
    /\ exec (drop 4 lowering) c1 = Done tt (context_of (exec lowering blank))
    /\ depths_follow (take 4 lowering) blank c1
    /\ depths_follow (drop 4 lowering) c1
                     (context_of (exec lowering blank)).
Proof.
  apply (stack_depths_follow_calls (H := backend) (take 4 lowering)
           (drop 4 lowering) blank (context_of (exec lowering blank))).
  exact lowering_runs.
Defined.

(** Inside block 1 the innermost block is block 1, also after the
    matched block 2; around the matched block 1 it is none. *)
Lemma peek_returns_innermost_witness :
  (exists r c',
      run (push 1 :: flat_map calls [stmt 10; block 2 [stmt 20]]) blank
      = Done r c'
      /\ peek_enclosing_scope c' = Done (Some 1) c')
  /\ (exists r c',
        run (flat_map calls [block 1 [stmt 10]]) blank = Done r c'
        /\ peek_enclosing_scope c' = Done nullptr c').
Proof.
  destruct (peek_returns_innermost (H := backend)) as [Hin Hout].
  split.
  - exact (Hin (Some 1) [stmt 10; block 2 [stmt 20]] blank).
  - apply (Hout [block 1 [stmt 10]] blank None); [|reflexivity].
    repeat constructor.
Defined.

(** While function 4 is lowered, with a block and a nested function 6
    inside, the innermost function is function 4. *)
Lemma peek_fn_returns_innermost_witness :
  let inner := [ @PushBlock backend (Some 1);
                 @PushFn backend (Some 6) (Some 7);
                 @AddStatement backend (Some 3);
                 @PopFn backend;
                 @PopBlock backend ] in
  let c' := context_of (exec (@PushFn backend (Some 4) (Some 5) :: inner)
                             blank) in
  peek_fn c' = Done {| fndecl := Some 4; ret_addr := Some 5 |} c'
  /\ exists c'', pop_fn c' = Done tt c'' /\ fn_stack c'' = [].
Proof.
  intros inner c'.
  apply (peek_fn_returns_innermost (H := backend) (Some 4) (Some 5) inner
           blank c'); [|vm_compute; reflexivity].
  apply fn_matched_other; [done..|].
  apply (fn_matched_fn (H := backend) (Some 6) (Some 7)
           [@AddStatement backend (Some 3)]
           [@PopBlock backend]).
  - apply fn_matched_other; [done..|]. apply fn_matched_nil.
  - apply fn_matched_other; [done..|]. apply fn_matched_nil.
Defined.

(** An array of four arrays of two [f64] is lowered from the entry of
    [f64] alone. *)
Lemma compile_reads_leaf_entry_witness :
  let ty := ArrayType 5 4 (ArrayType 6 2 (FloatType 103 F64)) in
  (insert_compiled_type 103 (Some (Named "double")) ;;; compile ty) blank
  = Done (Some (Array (Some (Array (Some (Named "double"))
                                   (Some (Some (Integer true 32), 2))))
                      (Some (Some (Integer true 32), 4))))
         (set_compiled_type_map {[ 103 := Some (Named "double") ]} blank)
  /\ (insert_compiled_type 7 (Some (Named "other")) ;;; compile ty) with_f64
     = Done (Some (Array (Some (Array (Some (Named "f64"))
                                      (Some (Some (Integer true 32), 2))))
                         (Some (Some (Integer true 32), 4))))
            (set_compiled_type_map
               (<[7 := Some (Named "other")]> (compiled_type_map with_f64))
               with_f64)
  /\ compile (ArrayType 5 4 (UnitType 1)) with_f64 = Aborted Unreachable.
Proof.
  intros ty.
  destruct (compile_reads_leaf_entry (H := backend) ty blank)
    as (Hinsert & _ & _).
  destruct (compile_reads_leaf_entry (H := backend) ty with_f64)
    as (_ & Hframe & _).
  destruct (compile_reads_leaf_entry (H := backend)
              (ArrayType 5 4 (UnitType 1)) with_f64) as (_ & _ & Hunit).
  split; [evaluated (Hinsert (Some (Named "double")) eq_refl)|].
  split; [|exact (Hunit eq_refl)].
  assert (Hid : (7 : HirId) <> get_ref (leaf ty)) by discriminate.
  evaluated (Hframe 7 (Some (Named "other")) Hid).
Defined.

(** The constructor registers the builtins [i32] and [u8] under their
    type identities and nothing else. *)
Lemma constructor_registers_builtins_witness :
  exists c,
    Context_new builtin_type_ids builtin_types compile_builtin [10; 11]
    = Done tt c
    /\ lookup_compiled_types 100 None c = Done (true, Some (Integer false 32)) c
    /\ lookup_compiled_types 101 None c = Done (true, Some (Integer true 8)) c
    /\ lookup_compiled_types 102 None c = Done (false, None) c.
Proof.
  destruct (constructor_registers_builtins (H := backend) builtin_type_ids
              builtin_types compile_builtin [10; 11]) as [Hiff Hctx].
  destruct (proj1 Hiff) as [c Hc].
  { repeat constructor.
    - by exists 100, (Some (IntType 100 I32)), (Some (Integer false 32)).
    - by exists 101, (Some (UintType 101 U8)), (Some (Integer true 8)). }
  exists c. split; [exact Hc|].
  destruct (Hctx c Hc) as (Hhit & Hmiss & _).
  split; [|split].
  - destruct (Hhit 10 100 None) as (l & t & Hl & Ht & Hlookup);
      [apply list_elem_of_here|done|].
    injection Hl as <-. injection Ht as <-. exact Hlookup.
  - destruct (Hhit 11 101 None) as (l & t & Hl & Ht & Hlookup);
      [apply list_elem_of_further, list_elem_of_here|done|].
    injection Hl as <-. injection Ht as <-. exact Hlookup.
  - apply Hmiss. intros it Hin.
    apply elem_of_cons in Hin as [->|Hin]; [done|].
    apply elem_of_cons in Hin as [->|Hin]; [done|].
    by apply elem_of_nil in Hin.
Defined.

(** [return 1u8] outside every function and in a function that
    returns [u8]. *)
Lemma return_expr_type_witness :
  Resolve return_one false outside = Aborted AssertFailed
  /\ Resolve return_one false start
     = Done (Some u8)
            (with_type 60 (Some u8) (with_type 61 (Some u8) start)).
Proof.
  split.
  - apply (return_expr_type (at_ 60) (Some one_u8) false outside).
    reflexivity.
  - assert (Hret : peek_return_type start = Done (Some u8) start)
      by reflexivity.
    assert (Hop : Resolve one_u8 false start
                  = Done (Some u8) (with_type 61 (Some u8) start))
      by (vm_compute; reflexivity).
    assert (Hcombine : combine u8 (Some u8) = Combined (Some u8) [])
      by reflexivity.
    evaluated (proj2 (return_expr_type (at_ 60) (Some one_u8) false start)
                 u8 one_u8 (Some u8) _ (Some u8) [] Hret eq_refl Hop
                 Hcombine).
Defined.

(** Four identifiers that stay unresolved, each at another lookup, and
    the use of [x]. *)
Lemma identifier_type_witness :
  unresolved_with (H := more_collaborators) (IdentifierExpr (at_ 39)) false
                  start (locus (at_ 39))
                  "Failed to lookup reference for node: %s"
  /\ unresolved_with (H := more_collaborators) (IdentifierExpr (at_ 40))
                     false start (locus (at_ 40)) "unknown reference"
  /\ unresolved_with (H := more_collaborators) (IdentifierExpr (at_ 42))
                     false start (locus (at_ 42)) "reverse lookup failure"
  /\ unresolved_with (H := more_collaborators) (IdentifierExpr (at_ 41))
                     false start 2009 "consider giving this a type: %s"
  /\ Resolve (H := more_collaborators) x_use false start
     = Done (Some (InferType 1)) (with_type 2 (Some (InferType 1)) start).
Proof.
  split; [|split; [|split; [|split]]].
  - apply (identifier_type (H := more_collaborators) (at_ 39) false start).
    vm_compute. reflexivity.
  - apply (proj2 (identifier_type (H := more_collaborators) (at_ 40) false
                    start)) with (ref_node_id := 503);
      vm_compute; reflexivity.
  - apply (proj2 (proj2 (identifier_type (H := more_collaborators) (at_ 42)
                           false start)))
      with (ref_node_id := 505) (def := {| parent := 505 |});
      vm_compute; reflexivity.
  - apply (proj2 (proj2 (proj2 (identifier_type (H := more_collaborators)
                                  (at_ 41) false start)))) with (ref := 9);
      vm_compute; reflexivity.
  - assert (Href : identifier_reference (H := more_collaborators) (at_ 2)
                   = Some 1) by (vm_compute; reflexivity).
    assert (Hty : resolved start !! (1 : HirId) = Some (Some (InferType 1)))
      by (vm_compute; reflexivity).
    evaluated (proj2 (proj2 (proj2 (proj2
                 (identifier_type (H := more_collaborators) (at_ 2) false
                    start)))) 1 (Some (InferType 1)) Href Hty).
Defined.

Lemma registered_builtins : builtins_registered registered.
Proof.
  intros name Hin.
  repeat (apply elem_of_cons in Hin as [->|Hin];
          [eexists; vm_compute; reflexivity|]).
  by apply elem_of_nil in Hin.
Qed.

(** The literal [1.0f32] has the type of the builtin [f32]. *)
Lemma literal_resolves_witness :
  exists name t,
    literal_builtin FLOAT CORETYPE_F32 = Some name
    /\ builtins registered !! name = Some (Some t)
    /\ Resolve one_f32 true registered
       = Done (Some t) (with_type 3 (Some t) registered).
Proof.
  apply (literal_resolves (at_ 3) FLOAT CORETYPE_F32 true registered).
  - exact registered_builtins.
  - discriminate.
Defined.

(** The comparison [2 < 2] has the type [i32] of its operands. *)
Lemma binary_operator_type_witness :
  Resolve (ComparisonExpr (at_ 62) two_i32 two_again) false start
  = Done (Some i32)
         (with_type 62 (Some i32)
            (with_type 63 (Some i32) (with_type 10 (Some i32) start))).
Proof.
  assert (Hop : ComparisonExpr ∈ binary_operators)
    by apply list_elem_of_further, list_elem_of_here.
  assert (Hl : Resolve two_i32 false start
               = Done (Some i32) (with_type 10 (Some i32) start))
    by (vm_compute; reflexivity).
  assert (Hr : Resolve two_again false (with_type 10 (Some i32) start)
               = Done (Some i32)
                      (with_type 63 (Some i32)
                         (with_type 10 (Some i32) start)))
    by (vm_compute; reflexivity).
  assert (Hcombine : combine i32 (Some i32) = Combined (Some i32) [])
    by reflexivity.
  evaluated (proj2 (binary_operator_type ComparisonExpr (at_ 62) two_i32
                      two_again false start _ _ (Some i32) (Some i32)
                      Hop Hl Hr)
               i32 (Some i32) [] eq_refl Hcombine).
Defined.

(** [if c { .. }] and [if c { .. } else if c { .. }] have the unit type,
    with blocks of type [u8]. *)
Lemma if_without_else_is_unit_witness :
  let s2 := with_type 21 (Some u8) (with_type 20 (Some bool_) start) in
  Resolve if_only true start
  = Done (Some (UnitType 64)) (with_type 64 (Some (UnitType 64)) s2)
  /\ Resolve (IfExprConseqIf (at_ 66) cond (BlockExpr (at_ 21)) if_only)
             false start
     = Done (Some (UnitType 66))
            (with_type 66 (Some (UnitType 66))
               (state_of (Resolve if_only false s2))).
Proof.
  intros s2.
  assert (Hc : Resolve cond false start
               = Done (Some bool_) (with_type 20 (Some bool_) start))
    by (vm_compute; reflexivity).
  assert (Ha : Resolve (BlockExpr (at_ 21)) false
                       (with_type 20 (Some bool_) start)
               = Done (Some u8) s2)
    by (vm_compute; reflexivity).
  assert (Hb : Resolve if_only false s2
               = Done (Some (UnitType 64))
                      (state_of (Resolve if_only false s2)))
    by (vm_compute; reflexivity).
  split.
  - evaluated (proj1 (if_without_else_is_unit (at_ 64) true start _ s2 cond
                        (BlockExpr (at_ 21)) _ _ Hc Ha)).
  - evaluated (proj2 (if_without_else_is_unit (at_ 66) false start _ s2 cond
                        (BlockExpr (at_ 21)) _ _ Hc Ha) if_only _ _ Hb).
Defined.

(** [[1, 2, 3]] is an array of three elements and [[1.0; 8]] an array of
    eight [f32]. *)
Lemma array_literal_is_resolved_witness :
  (exists element,
      Resolve three_i32 false start
      = Done (Some (ArrayType 33 3 element))
             (state_of (Resolve three_i32 false start)))
  /\ Resolve eight_f32 false start
     = Done (Some (ArrayType 65 8 f32))
            (with_type 65 (Some (ArrayType 65 8 f32))
               (with_type 3 (Some f32) start)).
Proof.
  split.
  - assert (Hrun : Resolve three_i32 false start
                   = Done (Some (ArrayType 33 3 i32))
                          (state_of (Resolve three_i32 false start)))
      by (vm_compute; reflexivity).
    destruct (proj1 (array_literal_is_resolved (at_ 33) _ false start) _ _
                Hrun) as [element Helement].
    exists element. rewrite Hrun. f_equal. exact Helement.
  - assert (He : Resolve one_f32 false start
                 = Done (Some f32) (with_type 3 (Some f32) start))
      by (vm_compute; reflexivity).
    evaluated (proj2 (array_literal_is_resolved (at_ 65)
                        (ArrayElemsCopied one_f32 8) false start)
                 one_f32 8 _ _ eq_refl He).
Defined.

(** Resolving [x = 1.0] keeps the builtins, the return types and the
    identities of the type table, and reports nothing. *)
Lemma resolve_only_adds_witness :
  let s' := state_of (Resolve x_assign false start) in
  builtins s' = builtins start
  /\ return_type_stack s' = return_type_stack start
  /\ (exists errors, diagnostics s' = diagnostics start ++ errors)
  /\ (forall id, is_Some (resolved start !! id) ->
                 is_Some (resolved s' !! id))
  /\ (forall before, exists s'',
        Resolve x_assign false (set_diagnostics before start)
        = Done (Some f32) s''
        /\ resolved s'' = resolved s').
Proof.
  intros s'.
  apply (resolve_only_adds x_assign false start (Some f32) s').
  - split; [|split]; intros; apply stable_ret.
  - vm_compute. reflexivity.
Defined.

(** After [a[2]] is resolved, its type [f64] is recorded for the node 8
    and nothing for the node 6 of [a]. *)
Lemma array_index_leaves_array_unrecorded_witness :
  let s1 := with_type 10 (Some i32) start in
  let s' := state_of (Resolve a_index false start) in
  resolved s' = <[8 := Some f64]> (resolved s1)
  /\ resolved s' !! (6 : HirId) = None.
Proof.
  intros s1 s'.
  assert (Hi : Resolve two_i32 false start = Done (Some i32) s1)
    by (vm_compute; reflexivity).
  assert (Hrun : Resolve a_index false start = Done (Some f64) s')
    by (vm_compute; reflexivity).
  destruct (array_index_leaves_array_unrecorded (at_ 8) (at_ 6) two_i32
              false start _ _ _ _ Hi Hrun) as [Htable Hkeep].
  split; [exact Htable|].
  assert (Hne : hirid (at_ 6) <> hirid (at_ 8)) by discriminate.
  evaluated (Hkeep Hne).
Defined.

(** [x = 1.0] resolves in final position as in non-final position. *)
Lemma final_position_matters_for_if_else_witness :
  Resolve x_assign true start = Resolve x_assign false start.
Proof.
  apply (final_position_matters_for_if_else x_assign start). reflexivity.
Defined.

(** The call [a ()] has the type recorded for [a]. *)
Lemma call_type_witness :
  Resolve (CallExpr (at_ 53) a_use []) false start
  = Done (Some (ArrayType 5 4 f64))
         (with_type 53 (Some (ArrayType 5 4 f64)) start).
Proof.
  assert (Href : call_reference (at_ 53) a_use = Some 5)
    by (vm_compute; reflexivity).
  assert (Hty : resolved start !! (5 : HirId)
                = Some (Some (ArrayType 5 4 f64)))
    by (vm_compute; reflexivity).
  evaluated (call_type (at_ 53) a_use [] false start 5 _ Href Hty).
Defined.

(** In a function that returns [u8], an if/else in final position whose
    then-branch has the type [bool]. *)
Lemma if_else_first_combine_null_witness :
  Resolve (IfExprConseqElse (at_ 24) cond (BlockExpr (at_ 31))
                            (BlockExpr (at_ 22))) true start
  = Aborted Undefined.
Proof.
  pose (s1 := with_type 20 (Some bool_) start).
  pose (s2 := with_type 31 (Some bool_) s1).
  pose (s3 := with_type 22 (Some u8) s2).
  apply (if_else_first_combine_null (at_ 24) cond (BlockExpr (at_ 31))
           (BlockExpr (at_ 22)) start s1 s2 s3 (Some bool_) (Some bool_)
           (Some u8) u8
           [ {| diag_locus := 104; diag_msg := "expected [%s] got [%s]" |} ]);
    vm_compute; reflexivity.
Defined.

(** Indexing a name that has no resolved declaration. *)
Lemma array_index_untyped_witness :
  Resolve (ArrayIndexExpr (at_ 14) (IdentifierExpr (at_ 39)) two_i32)
          false start
  = Aborted Undefined.
Proof.
  pose (s1 := with_type 10 (Some i32) start).
  pose (s2 := with_errors
                [ {| diag_locus := 2039;
                     diag_msg := "Failed to lookup reference for node: %s" |} ]
                s1).
  apply (array_index_untyped (at_ 14) (IdentifierExpr (at_ 39)) two_i32
           false start s1 (Some i32) (IntType 10 I32) []
           (TypeCheckExpr false) s2);
    vm_compute; reflexivity.
Defined.

End MoreExamples.
